(** * blaseball-scraper: the frame decoder, the entity maps and the update loop

    A shallow embedding of [blaseball.go]:
    - [NextUpdate] (lines 265-311), the decoder of one websocket frame;
    - the body of the goroutine of [main] (lines 345-384), the update loop,
      with the four maps created at lines 325-328.

    Go values are modelled as follows.  A [[]byte] is a [list byte]; a Go
    [string] is a [string]; an [int] is a [Z] (no arithmetic is done on the
    decoded counters); a slice is the list of its elements (a nil slice and an
    empty one are both [[]]: the program only ranges over slices); a pointer
    to a struct is an [option] of the struct, [None] being the nil pointer; a
    [map[string]*T] whose pointers are never nil is a [gmap string T]. *)

From Stdlib Require Import ZArith Strings.Byte.
From stdpp Require Import gmap strings list fin_maps pretty.

#[global] Instance byte_eq_dec : EqDecision byte := Byte.byte_eq_dec.

Abbreviation Bytes := (list byte).

(** [bs "abc"] is the byte slice [[]byte("abc")]. *)
Definition bs (s : string) : Bytes := String.list_byte_of_string s.

(** The byte of the double quote character. *)
Definition dquote : byte := x22.

(** [dq s] is [bs s] with every backquote replaced by a double quote; it is
    only a way of writing frames that contain double quotes. *)
Definition dq (s : string) : Bytes :=
  (λ b, if decide (b = x60) then dquote else b) <$> bs s.

(** ** Package [bytes] of the Go library (the four functions used) *)
Module bytes.

(** [len(s) >= len(prefix) && Equal(s[0:len(prefix)], prefix)] *)
Definition HasPrefix (s prefix : Bytes) : bool :=
  bool_decide (length prefix ≤ length s)
  && bool_decide (take (length prefix) s = prefix).

(** [len(s) >= len(suffix) && Equal(s[len(s)-len(suffix):], suffix)] *)
Definition HasSuffix (s suffix : Bytes) : bool :=
  bool_decide (length suffix ≤ length s)
  && bool_decide (drop (length s - length suffix) s = suffix).

(** [if HasPrefix(s, prefix) { return s[len(prefix):] }; return s] *)
Definition TrimPrefix (s prefix : Bytes) : Bytes :=
  if HasPrefix s prefix then drop (length prefix) s else s.

(** [if HasSuffix(s, suffix) { return s[:len(s)-len(suffix)] }; return s] *)
Definition TrimSuffix (s suffix : Bytes) : Bytes :=
  if HasSuffix s suffix then take (length s - length suffix) s else s.

End bytes.

(** ** Errors *)

(** The values of type [error] that reach the program. *)
Inductive error : Type :=
  | CloseError (Code : Z) (Text : string)
      (** a [*websocket.CloseError]: the peer sent a close frame *)
  | ReadError (text : string)
      (** any other error of [conn.ReadMessage] *)
  | ErrorsNew (text : string)
      (** [errors.New(text)] *)
  | JsonError (text : string).
      (** an error of [json.Unmarshal] *)

#[global] Instance error_eq_dec : EqDecision error.
Proof. solve_decision. Defined.

(** ** Package [websocket] (gorilla), as far as the program uses it *)
Module websocket.

Definition TextMessage : Z := 1.
Definition BinaryMessage : Z := 2.
Definition CloseNormalClosure : Z := 1000.
Definition CloseGoingAway : Z := 1001.
Definition CloseAbnormalClosure : Z := 1006.

(** [func IsCloseError(err error, codes ...int) bool] reports whether
    [err] is a close error with one of the specified codes: when [err] is
    a close error [e], it ranges over [codes] and returns [true] at the
    first [code] with [e.Code == code]; in every other case it returns
    [false]. *)
Definition IsCloseError (err : error) (codes : list Z) : bool :=
  match err with
  | CloseError Code _ => existsb (λ code, bool_decide (Code = code)) codes
  | _ => false
  end.

(** The three results [t, msg, err] of [conn.ReadMessage()]. *)
Inductive ReadMessage : Type :=
  | Message (messageType : Z) (p : Bytes)
  | Failed (err : error).

End websocket.

(** ** The data model (lines 19-69) *)

Module Team.
Record t : Type := mk {
  Lineup : list string;
  Rotation : list string;
  Bullpen : list string;
  Bench : list string;
  SeasonAttributes : list string;
  PermanentAttributes : list string;
  ID : string;
  FullName : string;
  Location : string;
  MainColor : string;
  Nickname : string;
  SecondaryColor : string;
  Shorthand : string;
  Emoji : string;
  Slogan : string;
  ShameRuns : Z;
  TotalShames : Z;
  TotalShamings : Z;
  SeasonShames : Z;
  SeasonShamings : Z;
  Championships : Z
}.
End Team.

Module SubLeague.
Record t : Type := mk {
  Divisions : list string;
  ID : string;
  Name : string
}.
End SubLeague.

Module Division.
Record t : Type := mk {
  Teams : list string;
  ID : string;
  Name : string
}.
End Division.

Module League.
Record t : Type := mk {
  Subleagues : list string;
  ID : string;
  Name : string;
  Tiebreakers : string
}.
End League.

Module LeagueData.
Record t : Type := mk {
  Teams : list (option Team.t);
  SubLeagues : list (option SubLeague.t);
  Divisions : list (option Division.t);
  Leagues : list (option League.t)
}.
End LeagueData.

(** ** A reference JSON codec

    [encoding/json] is not part of the program: the decoder and the loop
    below take [json.Unmarshal] as a parameter and every general statement
    holds for any such function.  This module is a codec to run the program
    on concrete frames.  It reads JSON text (RFC 8259 syntax; a [\u] escape
    of a surrogate is refused) and fills the structs as [json.Unmarshal] does
    on a zero struct: unknown members are skipped, [null] leaves a field as
    it is and gives a nil pointer as a slice element, another type than the
    field's is an error.  It is simpler than the library in this: a member is
    matched to a field by the exact name of the [json] tag only, and the
    bytes of a string are kept as they are.  Game data is kept as the
    document read.  [Marshal_LeagueData] writes the fields in the order of
    their declaration, with the escapes of [json.Marshal] for ASCII text. *)

#[global] Instance sum_ret {E} : MRet (sum E) := λ A a, inr a.
#[global] Instance sum_bind {E} : MBind (sum E) :=
  λ A B f x, match x with inl e => inl e | inr a => f a end.

Set Warnings "-register-all".

Module JsonRef.

Inductive Value : Type :=
  | Null
  | Bool (b : bool)
  | Number (literal : Bytes)
  | Str (s : string)
  | Arr (elements : list Value)
  | Obj (members : list (string * Value)).

Definition isSpace (b : byte) : bool :=
  bool_decide (b = x20 ∨ b = x09 ∨ b = x0a ∨ b = x0d).

Fixpoint skip (s : Bytes) : Bytes :=
  match s with
  | b :: r => if isSpace b then skip r else s
  | [] => []
  end.

Definition isDigit (b : byte) : bool :=
  bool_decide (48 ≤ Byte.to_nat b ≤ 57).

Definition hexDigit (b : byte) : option N :=
  let n := Byte.to_N b in
  if bool_decide (48 ≤ n ≤ 57)%N then Some (n - 48)%N
  else if bool_decide (97 ≤ n ≤ 102)%N then Some (n - 87)%N
  else if bool_decide (65 ≤ n ≤ 70)%N then Some (n - 55)%N
  else None.

Definition byteOf (n : N) : Bytes :=
  match Byte.of_N n with Some b => [b] | None => [] end.

(** UTF-8 of a code point of the basic plane that is not a surrogate. *)
Definition utf8 (cp : N) : option Bytes :=
  if bool_decide (cp < 128)%N then Some (byteOf cp)
  else if bool_decide (cp < 2048)%N then
    Some (byteOf (192 + cp / 64) ++ byteOf (128 + cp mod 64))
  else if bool_decide (55296 ≤ cp < 57344)%N then None
  else Some (byteOf (224 + cp / 4096) ++ byteOf (128 + (cp / 64) mod 64)
             ++ byteOf (128 + cp mod 64)).

Definition escapes : list (byte * byte) :=
  [(x22, x22); (x5c, x5c); (x2f, x2f); (x62, x08); (x66, x0c); (x6e, x0a);
   (x72, x0d); (x74, x09)].

Definition unescape (e : byte) : option byte :=
  p ← list_find (λ p, p.1 = e) escapes; Some p.2.2.

(** [startsWith lit s] is what follows [lit] in [s]. *)
Definition startsWith (lit s : Bytes) : option Bytes :=
  if decide (take (length lit) s = lit) then Some (drop (length lit) s)
  else None.

Definition unicode (s : Bytes) : option Bytes :=
  match s with
  | h1 :: h2 :: h3 :: h4 :: _ =>
    a ← hexDigit h1; b ← hexDigit h2; c ← hexDigit h3; d ← hexDigit h4;
    utf8 (4096 * a + 256 * b + 16 * c + d)%N
  | _ => None
  end.

(** The characters of a string literal after its opening quote, [acc] being
    the bytes read so far, last first; [esc] tells that the previous byte was
    a backslash, and [hex] counts the hex digits of a [\u] still to skip. *)
Fixpoint chars (s : Bytes) (esc : bool) (hex : nat) (acc : Bytes)
    : option (string * Bytes) :=
  match s with
  | [] => None
  | c :: r =>
    match hex with
    | S hex => chars r false hex acc
    | O =>
      if esc then
        if decide (c = x75) then u ← unicode r; chars r false 4 (rev u ++ acc)
        else e ← unescape c; chars r false 0 (e :: acc)
      else if decide (c = x22) then
        Some (String.string_of_list_byte (rev acc), r)
      else if decide (c = x5c) then chars r true 0 acc
      else if bool_decide (Byte.to_nat c < 32) then None
      else chars r false 0 (c :: acc)
    end
  end.

Fixpoint digits (s : Bytes) : Bytes * Bytes :=
  match s with
  | c :: r => if isDigit c then let '(ds, r) := digits r in (c :: ds, r) else ([], s)
  | [] => ([], [])
  end.

Definition oneOf (l : Bytes) (s : Bytes) : Bytes * Bytes :=
  match s with
  | c :: r => if decide (c ∈ l) then ([c], r) else ([], s)
  | [] => ([], [])
  end.

Definition number (s : Bytes) : option (Value * Bytes) :=
  let '(sign, r) := oneOf [x2d] s in
  let '(int, r) := digits r in
  if decide (int = []) then None
  else if decide (1 < length int ∧ head int = Some x30) then None
  else
    '(frac, r) ← (let '(dot, r') := oneOf [x2e] r in
                  if decide (dot = []) then Some ([], r)
                  else let '(ds, r') := digits r' in
                       if decide (ds = []) then None else Some (dot ++ ds, r'));
    '(exp, r) ← (let '(e, r') := oneOf [x65; x45] r in
                 if decide (e = []) then Some ([], r)
                 else let '(sg, r') := oneOf [x2b; x2d] r' in
                      let '(ds, r') := digits r' in
                      if decide (ds = []) then None
                      else Some (e ++ sg ++ ds, r'));
    Some (Number (sign ++ int ++ frac ++ exp), r).

Definition literal (s : Bytes) : option (Value * Bytes) :=
  match startsWith (bs "null") s, startsWith (bs "true") s,
        startsWith (bs "false") s with
  | Some r, _, _ => Some (Null, r)
  | _, Some r, _ => Some (Bool true, r)
  | _, _, Some r => Some (Bool false, r)
  | _, _, _ => number s
  end.

Fixpoint value (n : nat) (s : Bytes) {struct n} : option (Value * Bytes) :=
  match n with
  | O => None
  | S n =>
    match skip s with
    | c :: r =>
      if decide (c = x22) then '(s, r) ← chars r false 0 []; Some (Str s, r)
      else if decide (c = x5b) then
        match startsWith [x5d] (skip r) with
        | Some r => Some (Arr [], r)
        | None => elements n r []
        end
      else if decide (c = x7b) then
        match startsWith [x7d] (skip r) with
        | Some r => Some (Obj [], r)
        | None => members n r []
        end
      else literal (c :: r)
    | [] => None
    end
  end
with elements (n : nat) (s : Bytes) (acc : list Value) {struct n}
    : option (Value * Bytes) :=
  match n with
  | O => None
  | S n =>
    '(v, r) ← value n s;
    match skip r with
    | c :: r =>
      if decide (c = x2c) then elements n r (v :: acc)
      else if decide (c = x5d) then Some (Arr (rev (v :: acc)), r)
      else None
    | [] => None
    end
  end
with members (n : nat) (s : Bytes) (acc : list (string * Value)) {struct n}
    : option (Value * Bytes) :=
  match n with
  | O => None
  | S n =>
    r ← startsWith [x22] (skip s);
    '(k, r) ← chars r false 0 [];
    r ← startsWith [x3a] (skip r);
    '(v, r) ← value n r;
    match skip r with
    | c :: r =>
      if decide (c = x2c) then members n r ((k, v) :: acc)
      else if decide (c = x7d) then Some (Obj (rev ((k, v) :: acc)), r)
      else None
    | [] => None
    end
  end.

Definition parse (s : Bytes) : string + Value :=
  match value (S (length s)) s with
  | Some (v, r) =>
    if decide (skip r = []) then inr v
    else inl "invalid character after top-level value"
  | None => inl "invalid JSON text"
  end.


(** *** Decoding a document into the structs *)

Definition mismatch {A} (ty : string) : string + A :=
  inl ("json: cannot unmarshal value into Go value of type " +:+ ty).

Definition asString (v : Value) (old : string) : string + string :=
  match v with
  | Null => inr old
  | Str s => inr s
  | _ => mismatch "string"
  end.

Definition intOf (lit : Bytes) : option Z :=
  let '(sign, r) := oneOf [x2d] lit in
  let '(ds, r) := digits r in
  let n := foldl (λ acc d, 10 * acc + (Z.of_N (Byte.to_N d) - 48))%Z 0%Z ds in
  let z := if decide (sign = []) then n else (- n)%Z in
  if decide (r = [] ∧ - 2 ^ 63 ≤ z < 2 ^ 63)%Z then Some z else None.

Definition asInt (v : Value) (old : Z) : string + Z :=
  match v with
  | Null => inr old
  | Number lit =>
    match intOf lit with
    | Some z => inr z
    | None => mismatch "int"
    end
  | _ => mismatch "int"
  end.

Definition asSlice {A} (elem : Value → string + A) (v : Value)
    (old : list A) : string + list A :=
  match v with
  | Null => inr []
  | Arr l => mapM elem l
  | _ => mismatch "slice"
  end.

Definition asPointer {A} (fields : list (string * Value) → string + A)
    (v : Value) : string + option A :=
  match v with
  | Null => inr None
  | Obj ms => a ← fields ms; mret (Some a)
  | _ => mismatch "struct"
  end.

(** The field of name [key], decoded from every member of that name in
    turn, starting from [zero]. *)
Fixpoint field {A} (dec : Value → A → string + A) (key : string)
    (ms : list (string * Value)) (zero : A) : string + A :=
  match ms with
  | [] => inr zero
  | (k, v) :: ms =>
    if decide (k = key) then a ← dec v zero; field dec key ms a
    else field dec key ms zero
  end.

Definition strings (key : string) (ms : list (string * Value))
    : string + list string :=
  field (asSlice (λ v, asString v EmptyString)) key ms [].

Definition team (ms : list (string * Value)) : string + Team.t :=
  Lineup ← strings "lineup" ms;
  Rotation ← strings "rotation" ms;
  Bullpen ← strings "bullpen" ms;
  Bench ← strings "bench" ms;
  SeasonAttributes ← strings "seasonAttributes" ms;
  PermanentAttributes ← strings "permanentAttributes" ms;
  ID ← field asString "_id" ms EmptyString;
  FullName ← field asString "fullName" ms EmptyString;
  Location ← field asString "location" ms EmptyString;
  MainColor ← field asString "mainColor" ms EmptyString;
  Nickname ← field asString "nickname" ms EmptyString;
  SecondaryColor ← field asString "secondaryColor" ms EmptyString;
  Shorthand ← field asString "shorthand" ms EmptyString;
  Emoji ← field asString "emoji" ms EmptyString;
  Slogan ← field asString "slogan" ms EmptyString;
  ShameRuns ← field asInt "shameRuns" ms 0%Z;
  TotalShames ← field asInt "totalShames" ms 0%Z;
  TotalShamings ← field asInt "totalShamings" ms 0%Z;
  SeasonShames ← field asInt "seasonShames" ms 0%Z;
  SeasonShamings ← field asInt "seasonShamings" ms 0%Z;
  Championships ← field asInt "championships" ms 0%Z;
  mret (Team.mk Lineup Rotation Bullpen Bench SeasonAttributes
          PermanentAttributes ID FullName Location MainColor Nickname
          SecondaryColor Shorthand Emoji Slogan ShameRuns TotalShames
          TotalShamings SeasonShames SeasonShamings Championships).

Definition subLeague (ms : list (string * Value)) : string + SubLeague.t :=
  Divisions ← strings "divisions" ms;
  ID ← field asString "_id" ms EmptyString;
  Name ← field asString "name" ms EmptyString;
  mret (SubLeague.mk Divisions ID Name).

Definition division (ms : list (string * Value)) : string + Division.t :=
  Teams ← strings "teams" ms;
  ID ← field asString "_id" ms EmptyString;
  Name ← field asString "name" ms EmptyString;
  mret (Division.mk Teams ID Name).

Definition league (ms : list (string * Value)) : string + League.t :=
  Subleagues ← strings "subleagues" ms;
  ID ← field asString "_id" ms EmptyString;
  Name ← field asString "name" ms EmptyString;
  Tiebreakers ← field asString "tiebreakers" ms EmptyString;
  mret (League.mk Subleagues ID Name Tiebreakers).

Definition leagueData (ms : list (string * Value)) : string + LeagueData.t :=
  Teams ← field (asSlice (asPointer team)) "teams" ms [];
  SubLeagues ← field (asSlice (asPointer subLeague)) "subleagues" ms [];
  Divisions ← field (asSlice (asPointer division)) "divisions" ms [];
  Leagues ← field (asSlice (asPointer league)) "leagues" ms [];
  mret (LeagueData.mk Teams SubLeagues Divisions Leagues).

Definition Unmarshal_LeagueData (data : Bytes) : string + LeagueData.t :=
  v ← parse data;
  match v with
  | Null => inr (LeagueData.mk [] [] [] [])
  | Obj ms => leagueData ms
  | _ => mismatch "main.LeagueData"
  end.

(** Game data is kept as the document it was read from. *)
Definition Unmarshal_GameData (data : Bytes) : string + Value :=
  v ← parse data;
  match v with
  | Null | Obj _ => inr v
  | _ => mismatch "main.GameData"
  end.

(** *** Encoding the structs *)







Definition int (z : Z) : Bytes := bs (pretty z).







End JsonRef.

(** ** Execution with a nil-pointer panic

    [team.ID] on a nil [team] panics; the goroutine stops where it is and the
    maps keep what was assigned before.  [Normal s] is a run that reached its
    end in state [s], [Panic s] one that panicked in state [s]. *)
Inductive Exec (S : Type) : Type :=
  | Normal (s : S)
  | Panic (s : S).
Arguments Normal {S} s.
Arguments Panic {S} s.

Definition state {S} (e : Exec S) : S :=
  match e with Normal s | Panic s => s end.

Definition andThen {S} (e : Exec S) (k : S → Exec S) : Exec S :=
  match e with
  | Normal s => k s
  | Panic s => Panic s
  end.
Infix ">>>" := andThen (at level 61, left associativity).

Definition liftExec {S T} (f : S → T) (e : Exec S) : Exec T :=
  match e with
  | Normal s => Normal (f s)
  | Panic s => Panic (f s)
  end.

(** [for _, x := range l { m[x.ID] = x }] over a slice of pointers. *)
Fixpoint rangeAssign {T} (ID : T → string) (l : list (option T))
    (m : gmap string T) : Exec (gmap string T) :=
  match l with
  | [] => Normal m
  | None :: _ => Panic m
  | Some x :: l => rangeAssign ID l (<[ID x := x]> m)
  end.

(** ** The four maps of [main] (lines 325-328) *)
Record Store : Type := mkStore {
  teamsMap : gmap string Team.t;
  subLeaguesMap : gmap string SubLeague.t;
  divisionsMap : gmap string Division.t;
  leaguesMap : gmap string League.t
}.

(** [make(map[string]*Team)] and the three others. *)
Definition emptyStore : Store := mkStore ∅ ∅ ∅ ∅.

Definition rangeTeams (data : LeagueData.t) (s : Store) : Exec Store :=
  liftExec (λ m, mkStore m (subLeaguesMap s) (divisionsMap s) (leaguesMap s))
    (rangeAssign Team.ID (LeagueData.Teams data) (teamsMap s)).

Definition rangeSubLeagues (data : LeagueData.t) (s : Store) : Exec Store :=
  liftExec (λ m, mkStore (teamsMap s) m (divisionsMap s) (leaguesMap s))
    (rangeAssign SubLeague.ID (LeagueData.SubLeagues data) (subLeaguesMap s)).

Definition rangeDivisions (data : LeagueData.t) (s : Store) : Exec Store :=
  liftExec (λ m, mkStore (teamsMap s) (subLeaguesMap s) m (leaguesMap s))
    (rangeAssign Division.ID (LeagueData.Divisions data) (divisionsMap s)).

Definition rangeLeagues (data : LeagueData.t) (s : Store) : Exec Store :=
  liftExec (λ m, mkStore (teamsMap s) (subLeaguesMap s) (divisionsMap s) m)
    (rangeAssign League.ID (LeagueData.Leagues data) (leaguesMap s)).

(** The four loops of the [case *LeagueData] branch (lines 362-373). *)
Definition mergeLeagueData (data : LeagueData.t) (s : Store) : Exec Store :=
  rangeTeams data s >>> rangeSubLeagues data >>> rangeDivisions data
    >>> rangeLeagues data.

(** A text frame as [conn.ReadMessage()] returns it. *)
Definition text (frame : Bytes) : websocket.ReadMessage :=
  websocket.Message websocket.TextMessage frame.

(** ** The constants (lines 313-316) *)
Definition leagueDataPrefix : Bytes :=
  dquote :: bs "leagueDataUpdate" ++ [dquote; x2c].
Definition gameDataPrefix : Bytes :=
  dquote :: bs "gameDataUpdate" ++ [dquote; x2c].

(** What the loop prints, one constructor for each print statement of the
    goroutine. *)
Inductive Output : Type :=
  | PrintWaiting            (** [fmt.Println("Waiting for update...")] *)
  | PrintErr (err : error)  (** [fmt.Println(err.Error() + "\n")] *)
  | PrintUpdateType         (** [fmt.Printf("Update type: ")] *)
  | PrintLeagueData         (** [fmt.Printf("LeagueData\n")] *)
  | PrintGameData           (** [fmt.Printf("GameData\n")] *)
  | PrintUnknown            (** [fmt.Printf("unknown\n")] *)
  | PrintBlank.             (** [fmt.Println()] *)

#[global] Instance Output_eq_dec : EqDecision Output.
Proof. solve_decision. Defined.

(** Where the goroutine is: in its [for], gone through [return] (line 352),
    or stopped by a panic. *)
Inductive Status : Type := Running | Closed | Panicked.

#[global] Instance Status_eq_dec : EqDecision Status.
Proof. solve_decision. Defined.

Section Program.

(** [GameData] (lines 71-237).  The program decodes a value of this type and
    tests only that the update is one: no field of it is read, so the type is
    left open. *)
Variable GameData : Type.

(** [json.Unmarshal(msg, leagueData)] and [json.Unmarshal(msg, gameData)] of
    package [encoding/json], on a fresh zero struct: the struct as filled,
    or the text of the error. *)
Variable json_Unmarshal_LeagueData : Bytes → string + LeagueData.t.
Variable json_Unmarshal_GameData : Bytes → string + GameData.

(** The dynamic types an update returned without error can have. *)
Inductive Update : Type :=
  | IsLeagueData (leagueData : LeagueData.t)
  | IsGameData (gameData : GameData).

(** [func (c *BlaseballWebSocket) NextUpdate() (interface{}, error)], as a
    function of what [c.conn.ReadMessage()] returns. *)
Definition NextUpdate (read : websocket.ReadMessage) : error + Update :=
  match read with
  | websocket.Failed err => inl err
  | websocket.Message t msg =>
    if bool_decide (t ≠ websocket.TextMessage) then
      inl (ErrorsNew "unsupported websocket message type")
    else
      let msg := bytes.TrimPrefix msg (bs "42[") in
      let oldLen := Z.of_nat (length msg) in
      let msg := bytes.TrimPrefix msg leagueDataPrefix in
      if bool_decide (Z.of_nat (length msg)
                      = (oldLen - Z.of_nat (length leagueDataPrefix))%Z) then
        let msg := bytes.TrimSuffix msg (bs "]") in
        match json_Unmarshal_LeagueData msg with
        | inl err => inl (JsonError err)
        | inr leagueData => inr (IsLeagueData leagueData)
        end
      else
        let msg := bytes.TrimPrefix msg gameDataPrefix in
        if bool_decide (Z.of_nat (length msg)
                        = (oldLen - Z.of_nat (length gameDataPrefix))%Z) then
          let msg := bytes.TrimSuffix msg (bs "]") in
          match json_Unmarshal_GameData msg with
          | inl err => inl (JsonError err)
          | inr gameData => inr (IsGameData gameData)
          end
        else inl (ErrorsNew "unrecognized websocket data")
  end.

(** The error of line 310. *)
Definition Unrecognized : error := ErrorsNew "unrecognized websocket data".

(** Lines 285-292 and 300-307: what [NextUpdate] returns once it has the
    text [body] to decode. *)
Definition leagueUpdate (body : Bytes) : error + Update :=
  match json_Unmarshal_LeagueData body with
  | inl err => inl (JsonError err)
  | inr leagueData => inr (IsLeagueData leagueData)
  end.

Definition gameUpdate (body : Bytes) : error + Update :=
  match json_Unmarshal_GameData body with
  | inl err => inl (JsonError err)
  | inr gameData => inr (IsGameData gameData)
  end.

(** The state of the goroutine: the maps, what was printed so far (oldest
    first) and where the goroutine is. *)
Record Loop : Type := mkLoop {
  store : Store;
  printed : list Output;
  status : Status
}.

(** One turn of the [for] (lines 347-382), on the next result of
    [conn.ReadMessage()]. *)
Definition iteration (read : websocket.ReadMessage) (l : Loop) : Loop :=
  let out := printed l ++ [PrintWaiting] in
  match NextUpdate read with
  | inl err =>
    let out := out ++ [PrintErr err] in
    if websocket.IsCloseError err [] then mkLoop (store l) out Closed
    else mkLoop (store l) out Running
  | inr update =>
    let out := out ++ [PrintUpdateType] in
    match update with
    | IsLeagueData data =>
      let out := out ++ [PrintLeagueData] in
      match mergeLeagueData data (store l) with
      | Normal s => mkLoop s (out ++ [PrintBlank]) Running
      | Panic s => mkLoop s out Panicked
      end
    | IsGameData _ => mkLoop (store l) (out ++ [PrintGameData; PrintBlank]) Running
    end
  end.

(** The goroutine on the successive results of [conn.ReadMessage()]: it takes
    turns as long as it is in its [for]. *)
Fixpoint run (reads : list websocket.ReadMessage) (l : Loop) : Loop :=
  match reads with
  | [] => l
  | read :: reads =>
    match status l with
    | Running => run reads (iteration read l)
    | _ => l
    end
  end.

(** The goroutine as started by [main]. *)
Definition start : Loop := mkLoop emptyStore [] Running.

End Program.

Arguments IsLeagueData {GameData} leagueData.
Arguments IsGameData {GameData} gameData.
Arguments NextUpdate {GameData} _ _ read.
Arguments leagueUpdate {GameData} _ body.
Arguments gameUpdate {GameData} _ body.
Arguments iteration {GameData} _ _ read l.
Arguments run {GameData} _ _ reads l.

(** ** Notions used to state the properties *)

(** The map after [for _, x := range l { m[x.ID] = x }] over a slice that
    points to the records [l] in turn. *)
Definition assignAll {T} (ID : T → string) (l : list T) (m : gmap string T)
    : gmap string T :=
  foldl (λ m x, <[ID x := x]> m) m l.

(** The last record of [l] whose key is [k]. *)
Fixpoint lastWithKey {T} (ID : T → string) (k : string) (l : list T)
    : option T :=
  match l with
  | [] => None
  | x :: l =>
    match lastWithKey ID k l with
    | Some y => Some y
    | None => if decide (ID x = k) then Some x else None
    end
  end.

(** The entries of key [k] in an enumeration of the map [m]. *)
Definition recordsWithKey {T} (k : string) (m : gmap string T)
    : list (string * T) :=
  filter (λ kv, kv.1 = k) (map_to_list m).


(** The league data whose slices point to the given records: no nil
    pointer. *)
Definition snapshot (teams : list Team.t) (subLeagues : list SubLeague.t)
    (divisions : list Division.t) (leagues : list League.t) : LeagueData.t :=
  LeagueData.mk (Some <$> teams) (Some <$> subLeagues) (Some <$> divisions)
    (Some <$> leagues).

(** How many times the branch [case *GameData] (lines 375-376) was taken,
    as its print tells. *)
Definition observed (out : list Output) : nat :=
  length (filter (λ o, o = PrintGameData) out).

(** ** Concrete values for the examples *)
Module Sample.

(** A team that has only its key and its full name set. *)
Definition team (id fullName : string) : Team.t :=
  Team.mk [] [] [] [] [] [] id fullName EmptyString EmptyString EmptyString
    EmptyString EmptyString EmptyString EmptyString 0 0 0 0 0 0.

Definition horses : Team.t := team "T1" "Mild High Horses".
Definition fridays : Team.t := team "T1" "Hawai'i Fridays".

Definition dale : Team.t := team "T1" "Miami Dale".

(** Maps that hold one record of each kind. *)
Definition stocked : Store :=
  mkStore {[ "T1" := dale ]}
    {[ "S1" := SubLeague.mk ["D1"] "S1" "Good" ]}
    {[ "D1" := Division.mk ["T1"] "D1" "Lawful Good" ]}
    {[ "L1" := League.mk ["S1"] "L1" "Internet League" "TB" ]}.

(** The loop run with the reference codec. *)
Definition NextUpdate :=
  NextUpdate JsonRef.Unmarshal_LeagueData JsonRef.Unmarshal_GameData.
Definition iteration :=
  iteration JsonRef.Unmarshal_LeagueData JsonRef.Unmarshal_GameData.
Definition run :=
  run JsonRef.Unmarshal_LeagueData JsonRef.Unmarshal_GameData.

End Sample.

(** ** Notions used to state the further properties *)

(** Every record of the map is held under its own key. *)
Definition keyedBy {T} (ID : T → string) (m : gmap string T) : Prop :=
  ∀ k x, m !! k = Some x → ID x = k.

Definition wellKeyed (s : Store) : Prop :=
  keyedBy Team.ID (teamsMap s)
  ∧ keyedBy SubLeague.ID (subLeaguesMap s)
  ∧ keyedBy Division.ID (divisionsMap s)
  ∧ keyedBy League.ID (leaguesMap s).

(** The keys of the records [l]. *)
Definition keys {T} (ID : T → string) (l : list T) : gset string :=
  list_to_set (ID <$> l).

(** Every key of a map of [s] is a key of the same map of [s']. *)
Definition keysKept (s s' : Store) : Prop :=
  dom (teamsMap s) ⊆ dom (teamsMap s')
  ∧ dom (subLeaguesMap s) ⊆ dom (subLeaguesMap s')
  ∧ dom (divisionsMap s) ⊆ dom (divisionsMap s')
  ∧ dom (leaguesMap s) ⊆ dom (leaguesMap s').

(** No record of [l1] has the key of a record of [l2]. *)
Definition disjointKeys {T} (ID : T → string) (l1 l2 : list T) : Prop :=
  ∀ a b, a ∈ l1 → b ∈ l2 → ID a ≠ ID b.

(** The slice has no nil pointer. *)
Definition noNil {T} (l : list (option T)) : Prop := Forall is_Some l.


Definition decodesGame {GameData : Type}
    (unL : Bytes → string + LeagueData.t) (unG : Bytes → string + GameData)
    (read : websocket.ReadMessage) : bool :=
  match NextUpdate unL unG read with
  | inr (IsGameData _) => true
  | _ => false
  end.

(** ** The connection and the start of [main] (lines 243-259, 318-340) *)

Module http.
(** A response of the server, as far as the program looks at it:
    [Body] is what [ioutil.ReadAll(resp.Body)] returns. *)
Record Response : Type := mk {
  Body : error + Bytes
}.
End http.

(** What [websocket.DefaultDialer.DialContext] returns: a connection, or an
    error with the response of the server, a nil pointer when there is
    none. *)
Inductive Dial (Conn : Type) : Type :=
  | Dialed (conn : Conn)
  | DialFailed (resp : option http.Response) (err : error).
Arguments Dialed {Conn} conn.
Arguments DialFailed {Conn} resp err.

(** What [blaseballConnect] and the start of [main] print. *)
Inductive Console : Type :=
  | SayUsage (prog : string)     (** [fmt.Printf("Usage: %s <cookie>\n", os.Args[0])] *)
  | SayConnecting                (** [fmt.Println("Connecting to blaseball websocket...")] *)
  | SayResponse (resp : option http.Response) (** [fmt.Println(resp)] *)
  | SayError (err : error)       (** [fmt.Println(err)] *)
  | SayBody (body : Bytes)       (** [fmt.Println(string(body))] *)
  | SayConnected.                (** [fmt.Printf("Connected!\n\n")] *)

(** A call that prints [out] and returns [a], or prints [out] and panics. *)
Inductive Outcome (A : Type) : Type :=
  | Returns (out : list Console) (a : A)
  | Panics (out : list Console).
Arguments Returns {A} out a.
Arguments Panics {A} out.

Definition socketURL : string :=
  "wss://blaseball.com/socket.io/?EIO=3&transport=websocket".

(** [func blaseballConnect(ctx context.Context, cookie string)], with the
    dialer as a function of the URL and of the header.  On an error it reads
    [resp.Body], which panics when [resp] is nil; the error it returns is the
    one of the dialer, the one of reading the body is printed only. *)
Definition blaseballConnect {Conn : Type}
    (DialContext : string → list (string * string) → Dial Conn)
    (cookie : string) : Outcome (error + Conn) :=
  let header := [("Cookie", cookie)] in
  match DialContext socketURL header with
  | DialFailed resp err =>
    match resp with
    | None => Panics [SayResponse resp]
    | Some r =>
      match http.Body r with
      | inl err' => Returns [SayResponse resp; SayError err'] (inl err)
      | inr body => Returns [SayResponse resp; SayBody body] (inl err)
      end
    end
  | Dialed conn => Returns [] (inr conn)
  end.

(** How far [main] gets before it waits for a signal. *)
Inductive Main (Conn : Type) : Type :=
  | Exits (out : list Console) (code : Z)
      (** [os.Exit(code)] *)
  | Leaves (out : list Console)
      (** the [return] of line 337 *)
  | Crashes (out : list Console)
      (** a panic *)
  | Serves (out : list Console) (conn : Conn).
      (** the goroutine is started on [conn] with the four empty maps *)
Arguments Exits {Conn} out code.
Arguments Leaves {Conn} out.
Arguments Crashes {Conn} out.
Arguments Serves {Conn} out conn.

(** [main] (lines 318-340) on the arguments [os.Args]; [os.Args[0]] on no
    argument at all is out of range. *)
Definition main {Conn : Type}
    (DialContext : string → list (string * string) → Dial Conn)
    (Args : list string) : Main Conn :=
  if bool_decide (length Args ≠ 2) then
    match Args !! 0 with
    | None => Crashes []
    | Some prog => Exits [SayUsage prog] 1
    end
  else
    match Args !! 1 with
    | None => Crashes []
    | Some cookie =>
      match blaseballConnect DialContext cookie with
      | Panics out => Crashes (SayConnecting :: out)
      | Returns out (inl err) => Leaves (SayConnecting :: out ++ [SayError err])
      | Returns out (inr conn) => Serves (SayConnecting :: out ++ [SayConnected]) conn
      end
    end.

(** One more team for the examples, of another key. *)
Definition tigers : Team.t := Sample.team "T2" "Hades Tigers".

(** * Properties *)

(** ** The functions of package [bytes] *)

Lemma HasPrefix_app (p r : Bytes) : bytes.HasPrefix (p ++ r) p = true.
Proof.
  unfold bytes.HasPrefix. rewrite take_app_length, length_app.
  rewrite !bool_decide_eq_true_2; [done | done | lia].
Qed.

Lemma HasPrefix_inv (s p : Bytes) :
  bytes.HasPrefix s p = true → s = p ++ drop (length p) s.
Proof.
  unfold bytes.HasPrefix. intros [_ H]%andb_prop.
  apply bool_decide_eq_true_1 in H.
  rewrite <- H at 1. by rewrite take_drop.
Qed.

Lemma TrimPrefix_app (p r : Bytes) : bytes.TrimPrefix (p ++ r) p = r.
Proof.
  unfold bytes.TrimPrefix. by rewrite HasPrefix_app, drop_app_length.
Qed.

Lemma TrimPrefix_no (s p : Bytes) :
  bytes.HasPrefix s p = false → bytes.TrimPrefix s p = s.
Proof. unfold bytes.TrimPrefix. by intros ->. Qed.

(** The test of lines 281 and 296: the length went down by the length of
    the prefix exactly when the prefix was there. *)
Lemma trimmed_length (s p : Bytes) :
  p ≠ [] →
  bool_decide (Z.of_nat (length (bytes.TrimPrefix s p))
               = (Z.of_nat (length s) - Z.of_nat (length p))%Z)
  = bytes.HasPrefix s p.
Proof.
  intros Hp. assert (0 < length p) by (destruct p; [done | simpl; lia]).
  unfold bytes.TrimPrefix. destruct (bytes.HasPrefix s p) eqn:E.
  - apply bool_decide_eq_true_2.
    apply HasPrefix_inv in E. rewrite E at 2.
    rewrite length_app. lia.
  - apply bool_decide_eq_false_2. lia.
Qed.

Lemma HasSuffix_app (r q : Bytes) : bytes.HasSuffix (r ++ q) q = true.
Proof.
  unfold bytes.HasSuffix. rewrite length_app.
  replace (length r + length q - length q) with (length r) by lia.
  rewrite drop_app_length.
  rewrite !bool_decide_eq_true_2; [done | done | lia].
Qed.

Lemma HasSuffix_inv (s q : Bytes) :
  bytes.HasSuffix s q = true → s = take (length s - length q) s ++ q.
Proof.
  unfold bytes.HasSuffix. intros [_ H]%andb_prop.
  apply bool_decide_eq_true_1 in H.
  rewrite <- H at 2. by rewrite take_drop.
Qed.

Lemma TrimSuffix_app (r q : Bytes) : bytes.TrimSuffix (r ++ q) q = r.
Proof.
  unfold bytes.TrimSuffix. rewrite HasSuffix_app, length_app.
  replace (length r + length q - length q) with (length r) by lia.
  by rewrite take_app_length.
Qed.

Lemma TrimSuffix_no (s q : Bytes) :
  bytes.HasSuffix s q = false → bytes.TrimSuffix s q = s.
Proof. unfold bytes.TrimSuffix. by intros ->. Qed.

(** The two event names differ at their second byte: no slice starts with
    both. *)
Lemma prefixes_disjoint (s : Bytes) :
  bytes.HasPrefix s leagueDataPrefix = true →
  bytes.HasPrefix s gameDataPrefix = true → False.
Proof.
  intros H1%HasPrefix_inv H2%HasPrefix_inv.
  rewrite H1 in H2 at 1. simpl in H2. discriminate.
Qed.

(** ** The decoder *)
Section Decoder.

Context {GameData : Type}.
Variable unL : Bytes → string + LeagueData.t.
Variable unG : Bytes → string + GameData.

(** What [NextUpdate] does with a text frame, in terms of the prefixes the
    frame has. *)
Lemma NextUpdate_text (frame : Bytes) :
  NextUpdate unL unG (text frame) =
    let rest := bytes.TrimPrefix frame (bs "42[") in
    if bytes.HasPrefix rest leagueDataPrefix then
      leagueUpdate unL
        (bytes.TrimSuffix (drop (length leagueDataPrefix) rest) (bs "]"))
    else if bytes.HasPrefix rest gameDataPrefix then
      gameUpdate unG
        (bytes.TrimSuffix (drop (length gameDataPrefix) rest) (bs "]"))
    else inl (Unrecognized).
Proof.
  unfold NextUpdate, text.
  rewrite bool_decide_eq_false_2 by (intros H; by apply H).
  cbv zeta. rewrite trimmed_length by done.
  set (rest := bytes.TrimPrefix frame (bs "42[")).
  destruct (bytes.HasPrefix rest leagueDataPrefix) eqn:EL.
  - unfold bytes.TrimPrefix at 1. by rewrite EL.
  - rewrite (TrimPrefix_no rest leagueDataPrefix) by done.
    rewrite trimmed_length by done.
    destruct (bytes.HasPrefix rest gameDataPrefix) eqn:EG; [|done].
    unfold bytes.TrimPrefix at 1. by rewrite EG.
Qed.

Lemma NextUpdate_league (frame body : Bytes) :
  bytes.TrimPrefix frame (bs "42[") = leagueDataPrefix ++ body →
  NextUpdate unL unG (text frame) = leagueUpdate unL (bytes.TrimSuffix body (bs "]")).
Proof.
  intros E. rewrite NextUpdate_text. cbv zeta. rewrite E.
  by rewrite HasPrefix_app, drop_app_length.
Qed.

Lemma NextUpdate_game (frame body : Bytes) :
  bytes.TrimPrefix frame (bs "42[") = gameDataPrefix ++ body →
  NextUpdate unL unG (text frame) = gameUpdate unG (bytes.TrimSuffix body (bs "]")).
Proof.
  intros E. rewrite NextUpdate_text. cbv zeta. rewrite E.
  destruct (bytes.HasPrefix (gameDataPrefix ++ body) leagueDataPrefix) eqn:EL.
  - exfalso. eapply prefixes_disjoint; [exact EL | apply HasPrefix_app].
  - by rewrite HasPrefix_app, drop_app_length.
Qed.

Lemma NextUpdate_neither (frame : Bytes) :
  bytes.HasPrefix (bytes.TrimPrefix frame (bs "42[")) leagueDataPrefix = false →
  bytes.HasPrefix (bytes.TrimPrefix frame (bs "42[")) gameDataPrefix = false →
  NextUpdate unL unG (text frame) = inl Unrecognized.
Proof. intros EL EG. rewrite NextUpdate_text. cbv zeta. by rewrite EL, EG. Qed.

End Decoder.

Example leagueDataPrefix_text : leagueDataPrefix = dq "`leagueDataUpdate`,".
Proof. reflexivity. Qed.

Example gameDataPrefix_text : gameDataPrefix = dq "`gameDataUpdate`,".
Proof. reflexivity. Qed.

Section Frames.

Context {GameData : Type}.
Variable unL : Bytes → string + LeagueData.t.
Variable unG : Bytes → string + GameData.

(** C1, as amended.  A frame that does not start with the three bytes
    [42[]: when it does not start with one of the two event names followed
    by a comma either, it is refused with the error of an unrecognized
    frame; when it starts with one, it is decoded as an update of that
    kind. *)
Theorem frame_without_42 (frame : Bytes) :
  bytes.HasPrefix frame (bs "42[") = false →
  (bytes.HasPrefix frame leagueDataPrefix = false →
   bytes.HasPrefix frame gameDataPrefix = false →
   NextUpdate unL unG (text frame) = inl Unrecognized)
  ∧ (∀ body, frame = leagueDataPrefix ++ body →
       NextUpdate unL unG (text frame)
       = leagueUpdate unL (bytes.TrimSuffix body (bs "]")))
  ∧ (∀ body, frame = gameDataPrefix ++ body →
       NextUpdate unL unG (text frame)
       = gameUpdate unG (bytes.TrimSuffix body (bs "]"))).
Proof.
  intros E42. split_and!.
  - intros EL EG. apply NextUpdate_neither; by rewrite TrimPrefix_no.
  - intros body E. apply NextUpdate_league. by rewrite TrimPrefix_no.
  - intros body E. apply NextUpdate_game. by rewrite TrimPrefix_no.
Qed.

(** The three bytes [42[] are taken off when they are there and not asked
    for: a frame without them is decoded as the frame that has them. *)
Lemma NextUpdate_42_optional (frame : Bytes) :
  bytes.HasPrefix frame (bs "42[") = false →
  NextUpdate unL unG (text frame)
  = NextUpdate unL unG (text (bs "42[" ++ frame)).
Proof.
  intros E. rewrite !NextUpdate_text. cbv zeta.
  by rewrite TrimPrefix_app, TrimPrefix_no.
Qed.


Lemma NextUpdate_game_frame (body : Bytes) :
  NextUpdate unL unG (text (bs "42[" ++ gameDataPrefix ++ body ++ bs "]"))
  = gameUpdate unG body.
Proof.
  rewrite (NextUpdate_game _ _ _ (body ++ bs "]")).
  - by rewrite TrimSuffix_app.
  - by rewrite TrimPrefix_app.
Qed.


(** C9, as amended.  With [rest] the frame after its [42[], if any: when
    [rest] starts with an event name and a comma, what follows is decoded as
    an update of that kind, without its last byte when that byte is a closing
    bracket (one bracket only), and whole when it is not; [rest] never
    starts with both event names; when it starts with neither, the frame is
    unrecognized. *)
Theorem body_of_frame (frame rest : Bytes) :
  rest = bytes.TrimPrefix frame (bs "42[") →
  (∀ body, rest = leagueDataPrefix ++ body ++ bs "]" →
     NextUpdate unL unG (text frame) = leagueUpdate unL body)
  ∧ (∀ body, rest = leagueDataPrefix ++ body →
       bytes.HasSuffix body (bs "]") = false →
       NextUpdate unL unG (text frame) = leagueUpdate unL body)
  ∧ (∀ body, rest = gameDataPrefix ++ body ++ bs "]" →
       NextUpdate unL unG (text frame) = gameUpdate unG body)
  ∧ (∀ body, rest = gameDataPrefix ++ body →
       bytes.HasSuffix body (bs "]") = false →
       NextUpdate unL unG (text frame) = gameUpdate unG body)
  ∧ ¬ (bytes.HasPrefix rest leagueDataPrefix = true
       ∧ bytes.HasPrefix rest gameDataPrefix = true)
  ∧ (bytes.HasPrefix rest leagueDataPrefix = false →
     bytes.HasPrefix rest gameDataPrefix = false →
     NextUpdate unL unG (text frame) = inl Unrecognized).
Proof.
  intros ->. repeat split.
  - intros body E. rewrite (NextUpdate_league _ _ _ _ E).
    by rewrite TrimSuffix_app.
  - intros body E Hno. rewrite (NextUpdate_league _ _ _ _ E).
    by rewrite TrimSuffix_no.
  - intros body E. rewrite (NextUpdate_game _ _ _ _ E).
    by rewrite TrimSuffix_app.
  - intros body E Hno. rewrite (NextUpdate_game _ _ _ _ E).
    by rewrite TrimSuffix_no.
  - intros [HL HG]. exact (prefixes_disjoint _ HL HG).
  - apply NextUpdate_neither.
Qed.

End Frames.

(** The first frame a socket.io server sends is refused. *)
Lemma frame_without_42_witness :
  let frame := dq "0{`sid`:`x`,`upgrades`:[],`pingInterval`:25000}" in
  bytes.HasPrefix frame (bs "42[") = false
  ∧ Sample.NextUpdate (text frame) = inl Unrecognized.
Proof.
  intros frame.
  assert (E : bytes.HasPrefix frame (bs "42[") = false) by reflexivity.
  split; [exact E |].
  apply (proj1 (frame_without_42 JsonRef.Unmarshal_LeagueData
                  JsonRef.Unmarshal_GameData frame E)); reflexivity.
Defined.

(** C1 as stated fails: a frame that starts with the event name of league
    data, and not with [42[], is decoded as league data. *)
Lemma league_frame_without_42 :
  let frame :=
    dq "`leagueDataUpdate`,{`teams`:[{`_id`:`T1`,`fullName`:`Mild High Horses`}]}]" in
  bytes.HasPrefix frame (bs "42[") = false
  ∧ Sample.NextUpdate (text frame)
    = inr (IsLeagueData (LeagueData.mk [Some Sample.horses] [] [] []))
  ∧ Sample.NextUpdate (text frame) ≠ inl Unrecognized.
Proof. vm_compute. repeat split. discriminate. Qed.


Lemma body_of_frame_witness :
  let frame := dq "42[`gameDataUpdate`,{`sim`:{`day`:7}}]" in
  Sample.NextUpdate (text frame)
  = gameUpdate JsonRef.Unmarshal_GameData (dq "{`sim`:{`day`:7}}").
Proof.
  intros frame.
  refine (proj1 (proj2 (proj2 (body_of_frame JsonRef.Unmarshal_LeagueData
            JsonRef.Unmarshal_GameData frame _ eq_refl))) _ _).
  reflexivity.
Defined.

(** C9 as stated fails: in this frame the event name of game data matches
    and what follows has no closing bracket; nothing is taken off and the
    frame is decoded all the same. *)
Lemma frame_without_bracket :
  let frame := dq "42[`gameDataUpdate`,{}" in
  bytes.TrimPrefix frame (bs "42[") = gameDataPrefix ++ bs "{}"
  ∧ (¬ ∃ body, bs "{}" = body ++ bs "]")
  ∧ Sample.NextUpdate (text frame) = gameUpdate JsonRef.Unmarshal_GameData (bs "{}")
  ∧ Sample.NextUpdate (text frame) = inr (IsGameData (JsonRef.Obj [])).
Proof.
  repeat split; try reflexivity.
  intros [body E]. apply (f_equal (@rev byte)) in E.
  rewrite rev_app_distr in E. discriminate.
Qed.

(** ** The assignments to a map *)
Section Assign.

Context {T : Type}.
Variable ID : T → string.

Lemma rangeAssign_Some (l : list T) (m : gmap string T) :
  rangeAssign ID (Some <$> l) m = Normal (assignAll ID l m).
Proof.
  revert m. induction l as [|x l IH]; intros m; [done|].
  simpl. apply IH.
Qed.

(** A run that reaches its end met no nil pointer. *)
Lemma rangeAssign_Normal_inv (l : list (option T)) (m m' : gmap string T) :
  rangeAssign ID l m = Normal m' →
  ∃ l', l = Some <$> l' ∧ m' = assignAll ID l' m.
Proof.
  revert m. induction l as [|[x|] l IH]; intros m E; simpl in E.
  - exists []. by inversion E.
  - destruct (IH _ E) as (l' & -> & ->). by exists (x :: l').
  - discriminate.
Qed.

Lemma lookup_assignAll (l : list T) (m : gmap string T) (k : string) :
  assignAll ID l m !! k
  = match lastWithKey ID k l with
    | Some x => Some x
    | None => m !! k
    end.
Proof.
  revert m. induction l as [|x l IH]; intros m; [done|].
  unfold assignAll in *. simpl. rewrite IH.
  destruct (lastWithKey ID k l); [done|].
  destruct (decide (ID x = k)) as [<-|Hne].
  - by rewrite lookup_insert_eq.
  - by rewrite lookup_insert_ne.
Qed.

Lemma lastWithKey_last (l1 l2 : list T) (x : T) :
  Forall (λ c, ID c ≠ ID x) l2 →
  lastWithKey ID (ID x) (l1 ++ x :: l2) = Some x.
Proof.
  intros Hl2.
  assert (E2 : lastWithKey ID (ID x) l2 = None).
  { induction Hl2 as [|c l Hc _ IH]; [done|].
    simpl. rewrite IH. by rewrite decide_False. }
  induction l1 as [|y l1 IH]; simpl.
  - rewrite E2. by rewrite decide_True.
  - by rewrite IH.
Qed.

Lemma lastWithKey_Some (l : list T) (k : string) (x : T) :
  lastWithKey ID k l = Some x → x ∈ l ∧ ID x = k.
Proof.
  induction l as [|y l IH]; simpl; [done|].
  destruct (lastWithKey ID k l) as [z|].
  - intros E. destruct (IH E). split; [by right | done].
  - destruct (decide (ID y = k)); [|done].
    intros [= <-]. split; [by left | done].
Qed.

(** Assigning the same records a second time changes nothing. *)
Lemma assignAll_idem (l : list T) (m : gmap string T) :
  assignAll ID l (assignAll ID l m) = assignAll ID l m.
Proof.
  apply map_eq. intros k. rewrite lookup_assignAll.
  destruct (lastWithKey ID k l) eqn:E; [|done].
  by rewrite lookup_assignAll, E.
Qed.

Lemma rangeAssign_idem (l : list (option T)) (m m' : gmap string T) :
  rangeAssign ID l m = Normal m' → rangeAssign ID l m' = Normal m'.
Proof.
  intros (l' & -> & ->)%rangeAssign_Normal_inv.
  by rewrite rangeAssign_Some, assignAll_idem.
Qed.

(** What the map held under a key that is assigned does not matter. *)
Lemma assignAll_overwrites (l : list T) (m : gmap string T) (k : string)
    (old : T) :
  is_Some (lastWithKey ID k l) →
  assignAll ID l (<[k := old]> m) = assignAll ID l m.
Proof.
  intros [x Hx]. apply map_eq. intros j. rewrite !lookup_assignAll.
  destruct (lastWithKey ID j l) eqn:E; [done|].
  rewrite lookup_insert_ne; [done|]. intros <-. congruence.
Qed.

Lemma filter_none {A} (P : A → Prop) `{∀ x, Decision (P x)} (l : list A) :
  Forall (λ x, ¬ P x) l → filter P l = [].
Proof.
  induction 1 as [|x l Hx _ IH]; [done|].
  by rewrite filter_cons_False.
Qed.

(** A map has one entry for a key it holds. *)
Lemma recordsWithKey_lookup (m : gmap string T) (k : string) (x : T) :
  m !! k = Some x → recordsWithKey k m = [(k, x)].
Proof.
  intros Hk. unfold recordsWithKey.
  apply Permutation_singleton_r.
  rewrite <- (map_to_list_delete m k x Hk).
  rewrite filter_cons_True by done.
  rewrite filter_none; [done|].
  apply Forall_forall. intros [j y] Hj%elem_of_map_to_list. simpl.
  intros ->. by rewrite lookup_delete_eq in Hj.
Qed.

Lemma recordsWithKey_None (m : gmap string T) (k : string) :
  m !! k = None → recordsWithKey k m = [].
Proof.
  intros Hk. unfold recordsWithKey. apply filter_none.
  apply Forall_forall. intros [j y] Hj%elem_of_map_to_list. simpl.
  intros ->. congruence.
Qed.


End Assign.

(** ** The merge of league data into the four maps *)

Lemma merge_snapshot teams subLeagues divisions leagues (s : Store) :
  mergeLeagueData (snapshot teams subLeagues divisions leagues) s
  = Normal (mkStore (assignAll Team.ID teams (teamsMap s))
              (assignAll SubLeague.ID subLeagues (subLeaguesMap s))
              (assignAll Division.ID divisions (divisionsMap s))
              (assignAll League.ID leagues (leaguesMap s))).
Proof.
  unfold mergeLeagueData, rangeTeams, rangeSubLeagues, rangeDivisions,
    rangeLeagues, snapshot. simpl.
  repeat (rewrite rangeAssign_Some; simpl). done.
Qed.

Lemma merge_Normal_inv (data : LeagueData.t) (s s' : Store) :
  mergeLeagueData data s = Normal s' →
  rangeAssign Team.ID (LeagueData.Teams data) (teamsMap s)
    = Normal (teamsMap s')
  ∧ rangeAssign SubLeague.ID (LeagueData.SubLeagues data) (subLeaguesMap s)
    = Normal (subLeaguesMap s')
  ∧ rangeAssign Division.ID (LeagueData.Divisions data) (divisionsMap s)
    = Normal (divisionsMap s')
  ∧ rangeAssign League.ID (LeagueData.Leagues data) (leaguesMap s)
    = Normal (leaguesMap s').
Proof.
  unfold mergeLeagueData, rangeTeams, rangeSubLeagues, rangeDivisions,
    rangeLeagues.
  destruct (rangeAssign Team.ID _ _) as [tm|tm]; simpl; [|done].
  destruct (rangeAssign SubLeague.ID _ _) as [sm|sm]; simpl; [|done].
  destruct (rangeAssign Division.ID _ _) as [dm|dm]; simpl; [|done].
  destruct (rangeAssign League.ID _ _) as [lm|lm]; simpl; [|done].
  by intros [= <-].
Qed.

(** A merge that ran to its end, run again on its result, gives it back. *)
Lemma merge_Normal_again (data : LeagueData.t) (s s' : Store) :
  mergeLeagueData data s = Normal s' → mergeLeagueData data s' = Normal s'.
Proof.
  intros (ET & ES & ED & EL)%merge_Normal_inv.
  apply rangeAssign_idem in ET, ES, ED, EL.
  unfold mergeLeagueData, rangeTeams, rangeSubLeagues, rangeDivisions,
    rangeLeagues.
  rewrite ET. simpl. rewrite ES. simpl. rewrite ED. simpl. rewrite EL. simpl.
  by destruct s'.
Qed.

(** The loop over the teams assigns to the map of the teams only. *)
Lemma rangeTeams_frame (data : LeagueData.t) (s : Store) :
  let s' := state (rangeTeams data s) in
  subLeaguesMap s' = subLeaguesMap s
  ∧ divisionsMap s' = divisionsMap s
  ∧ leaguesMap s' = leaguesMap s.
Proof.
  unfold rangeTeams.
  by destruct (rangeAssign Team.ID (LeagueData.Teams data) (teamsMap s)).
Qed.

(** C6.  Merging the same league data a second time, right after the first,
    ends as the first merge did, with the same four maps: the second run
    assigns to every key the record it already holds (and when the first
    merge panics there is no second one). *)
Theorem merge_twice (data : LeagueData.t) (s : Store) :
  mergeLeagueData data s >>> mergeLeagueData data = mergeLeagueData data s.
Proof.
  destruct (mergeLeagueData data s) as [s'|s'] eqn:E; simpl; [|done].
  exact (merge_Normal_again data s s' E).
Qed.

(** C7.  League data with teams only: its merge leaves the maps of the
    sub-leagues, of the divisions and of the leagues as they were. *)
Theorem merge_teams_only (data : LeagueData.t) (s : Store) :
  LeagueData.SubLeagues data = [] →
  LeagueData.Divisions data = [] →
  LeagueData.Leagues data = [] →
  let s' := state (mergeLeagueData data s) in
  subLeaguesMap s' = subLeaguesMap s
  ∧ divisionsMap s' = divisionsMap s
  ∧ leaguesMap s' = leaguesMap s.
Proof.
  intros ES ED EL.
  unfold mergeLeagueData, rangeTeams, rangeSubLeagues, rangeDivisions,
    rangeLeagues.
  rewrite ES, ED, EL.
  by destruct (rangeAssign Team.ID (LeagueData.Teams data) (teamsMap s)).
Qed.

(** C4, as amended.  The league data points to the records
    [before ++ t :: after], where no team of [after] has the key of [t], and
    the map of the teams holds a team [old] under that key.  The merge runs
    to its end; the map then holds [t], whole, under the key; it has this
    one entry for the key; and the map of the teams is the same whatever
    team was held under the key before. *)
Theorem merge_replaces_team (s : Store) (before after : list Team.t)
    (t old : Team.t) subLeagues divisions leagues :
  Forall (λ c, Team.ID c ≠ Team.ID t) after →
  teamsMap s !! Team.ID t = Some old →
  let data := snapshot (before ++ t :: after) subLeagues divisions leagues in
  let r := mergeLeagueData data s in
  r = Normal (state r)
  ∧ teamsMap (state r) !! Team.ID t = Some t
  ∧ recordsWithKey (Team.ID t) (teamsMap (state r)) = [(Team.ID t, t)]
  ∧ ∀ other : Team.t,
      teamsMap (state (mergeLeagueData data
        (mkStore (<[Team.ID t := other]> (teamsMap s)) (subLeaguesMap s)
           (divisionsMap s) (leaguesMap s))))
      = teamsMap (state r).
Proof.
  intros Hafter Hold data r. unfold r, data. rewrite !merge_snapshot. simpl.
  assert (E : assignAll Team.ID (before ++ t :: after) (teamsMap s)
              !! Team.ID t = Some t).
  { by rewrite lookup_assignAll, lastWithKey_last. }
  repeat split; [done | by apply recordsWithKey_lookup |].
  intros other. rewrite merge_snapshot. simpl.
  apply assignAll_overwrites. by rewrite lastWithKey_last.
Qed.


(** ** The update loop *)
Section UpdateLoop.

Context {GameData : Type}.
Variable unL : Bytes → string + LeagueData.t.
Variable unG : Bytes → string + GameData.

(** Called with no code, as at line 351, [IsCloseError] ranges over nothing
    and answers [false]. *)
Lemma IsCloseError_no_code (err : error) :
  websocket.IsCloseError err [] = false.
Proof. by destruct err. Qed.

(** A turn on which [NextUpdate] returns an error prints it and goes on to
    the next turn, the maps being as they were. *)
Lemma iteration_error (read : websocket.ReadMessage) (err : error) (l : Loop) :
  NextUpdate unL unG read = inl err →
  iteration unL unG read l
  = mkLoop (store l) (printed l ++ [PrintWaiting; PrintErr err]) Running.
Proof.
  intros E. unfold iteration. rewrite E, IsCloseError_no_code.
  by rewrite <- app_assoc.
Qed.

Lemma iteration_not_Closed (read : websocket.ReadMessage) (l : Loop) :
  status (iteration unL unG read l) ≠ Closed.
Proof.
  unfold iteration. destruct (NextUpdate unL unG read) as [err|[data|g]].
  - by rewrite IsCloseError_no_code.
  - by destruct (mergeLeagueData data (store l)).
  - done.
Qed.

(** The [return] of line 352 is never reached. *)
Lemma run_not_Closed (reads : list websocket.ReadMessage) (l : Loop) :
  status l ≠ Closed → status (run unL unG reads l) ≠ Closed.
Proof.
  revert l. induction reads as [|read reads IH]; intros l Hl; [done|].
  simpl. destruct (status l) eqn:E; try (by rewrite E).
  apply IH, iteration_not_Closed.
Qed.

(** C2, where the program departs from it.  When [conn.ReadMessage()] fails
    with a close error, whatever its code, the turn prints the error and the
    goroutine stays in its [for], ready for the next turn: it does not
    return. *)
Theorem close_error_keeps_running (Code : Z) (Text : string) (l : Loop) :
  iteration unL unG (websocket.Failed (CloseError Code Text)) l
  = mkLoop (store l)
      (printed l ++ [PrintWaiting; PrintErr (CloseError Code Text)]) Running.
Proof. by apply iteration_error. Qed.

(** An unrecognized frame or a text that does not decode leaves the
    goroutine in its [for]. *)
Lemma recoverable_error_keeps_running (read : websocket.ReadMessage)
    (err : error) (l : Loop) :
  NextUpdate unL unG read = inl err →
  status (iteration unL unG read l) = Running.
Proof. intros E. by rewrite (iteration_error _ _ _ E). Qed.

(** An error of [json.Unmarshal] comes out of a text frame only when one of
    the two event names matched and the text after it did not decode. *)
Lemma JsonError_inv (frame : Bytes) (cause : string) :
  NextUpdate unL unG (text frame) = inl (JsonError cause) →
  ∃ body,
    (bytes.TrimPrefix frame (bs "42[") = leagueDataPrefix ++ body
     ∧ unL (bytes.TrimSuffix body (bs "]")) = inl cause)
    ∨ (bytes.TrimPrefix frame (bs "42[") = gameDataPrefix ++ body
       ∧ unG (bytes.TrimSuffix body (bs "]")) = inl cause).
Proof.
  rewrite NextUpdate_text. cbv zeta.
  set (rest := bytes.TrimPrefix frame (bs "42[")).
  destruct (bytes.HasPrefix rest leagueDataPrefix) eqn:EL.
  - unfold leagueUpdate. intros E.
    exists (drop (length leagueDataPrefix) rest). left.
    split; [by apply HasPrefix_inv|].
    destruct (unL _); congruence.
  - destruct (bytes.HasPrefix rest gameDataPrefix) eqn:EG; [|done].
    unfold gameUpdate. intros E.
    exists (drop (length gameDataPrefix) rest). right.
    split; [by apply HasPrefix_inv|].
    destruct (unG _); congruence.
Qed.

(** C5.  A text frame on which [NextUpdate] fails with an error of
    [json.Unmarshal]: the turn leaves the store, that is the four maps, as
    it was, and the goroutine goes on with the next result of
    [conn.ReadMessage()]. *)
Theorem failed_parse_keeps_store (frame : Bytes) (cause : string) (l : Loop)
    (reads : list websocket.ReadMessage) :
  NextUpdate unL unG (text frame) = inl (JsonError cause) →
  store (iteration unL unG (text frame) l) = store l
  ∧ status (iteration unL unG (text frame) l) = Running
  ∧ (status l = Running →
     run unL unG (text frame :: reads) l
     = run unL unG reads
         (mkLoop (store l)
            (printed l ++ [PrintWaiting; PrintErr (JsonError cause)])
            Running)).
Proof.
  intros E. rewrite (iteration_error _ _ _ E). split_and!; [done | done |].
  intros Hl. simpl. by rewrite Hl, (iteration_error _ _ _ E).
Qed.


(** A turn on league data leaves the count of the game data seen as it
    was. *)
Lemma league_data_not_observed (read : websocket.ReadMessage)
    (data : LeagueData.t) (l : Loop) :
  NextUpdate unL unG read = inr (IsLeagueData data) →
  observed (printed (iteration unL unG read l)) = observed (printed l).
Proof.
  intros E. unfold iteration. rewrite E.
  destruct (mergeLeagueData data (store l)); simpl; unfold observed;
    rewrite !filter_app, !length_app; simpl; lia.
Qed.

End UpdateLoop.

(** ** The program on concrete frames *)

(** The scenario of the two teams of key [T1]: after the first frame the map
    holds the Mild High Horses, after the second the Hawai'i Fridays, and it
    has one entry. *)
Example scenario_T1 :
  let f1 := text (dq "42[`leagueDataUpdate`,{`teams`:[{`_id`:`T1`,`fullName`:`Mild High Horses`}]}]") in
  let f2 := text (dq "42[`leagueDataUpdate`,{`teams`:[{`_id`:`T1`,`fullName`:`Hawai'i Fridays`}]}]") in
  teamsMap (store (Sample.run [f1] start)) !! "T1" = Some Sample.horses
  ∧ teamsMap (store (Sample.run [f1; f2] start)) !! "T1" = Some Sample.fridays
  ∧ map_to_list (teamsMap (store (Sample.run [f1; f2] start)))
    = [("T1", Sample.fridays)]
  ∧ status (Sample.run [f1; f2] start) = Running.
Proof. vm_compute. done. Qed.

(** A nil pointer among the teams stops the goroutine: the teams before it
    are in the map, the slices after it are not looked at. *)
Example nil_team_panics :
  let f := text (dq "42[`leagueDataUpdate`,{`teams`:[{`_id`:`T1`},null],`leagues`:[{`_id`:`L1`}]}]") in
  status (Sample.run [f] start) = Panicked
  ∧ is_Some (teamsMap (store (Sample.run [f] start)) !! "T1")
  ∧ leaguesMap (store (Sample.run [f] start)) !! "L1" = None.
Proof. vm_compute. split_and!; eauto. Qed.

(** A close frame with the code of a normal closure does not end the
    loop: the frame that comes next is still decoded. *)
Example normal_closure_goes_on :
  let closed := websocket.Failed (CloseError websocket.CloseNormalClosure "bye") in
  let f := text (dq "42[`gameDataUpdate`,{}]") in
  status (Sample.run [closed] start) = Running
  ∧ printed (Sample.run [closed; f] start)
    = [PrintWaiting; PrintErr (CloseError 1000 "bye");
       PrintWaiting; PrintUpdateType; PrintGameData; PrintBlank].
Proof. vm_compute. done. Qed.

Lemma merge_teams_only_witness :
  let data := LeagueData.mk [Some Sample.fridays; None] [] [] [] in
  let s' := state (mergeLeagueData data Sample.stocked) in
  subLeaguesMap s' = subLeaguesMap Sample.stocked
  ∧ divisionsMap s' = divisionsMap Sample.stocked
  ∧ leaguesMap s' = leaguesMap Sample.stocked.
Proof.
  apply (merge_teams_only (LeagueData.mk [Some Sample.fridays; None] [] [] [])
           Sample.stocked); reflexivity.
Defined.

Lemma merge_replaces_team_witness :
  let r := mergeLeagueData (snapshot [Sample.horses; Sample.fridays] [] [] [])
             Sample.stocked in
  teamsMap Sample.stocked !! "T1" = Some Sample.dale
  ∧ r = Normal (state r)
  ∧ teamsMap (state r) !! "T1" = Some Sample.fridays
  ∧ recordsWithKey "T1" (teamsMap (state r)) = [("T1", Sample.fridays)].
Proof.
  assert (Hold : teamsMap Sample.stocked !! Team.ID Sample.fridays
                 = Some Sample.dale) by reflexivity.
  destruct (merge_replaces_team Sample.stocked [Sample.horses] []
              Sample.fridays Sample.dale [] [] [] (Forall_nil_2 _) Hold)
    as (H1 & H2 & H3 & _).
  split_and!; [exact Hold | exact H1 | exact H2 | exact H3].
Defined.

(** C4 as stated fails: the league data has two teams of key [T1], a key
    that the map holds; after the merge the map does not hold the first of
    them, the Mild High Horses, but the second. *)
Lemma earlier_team_not_stored :
  let data := snapshot [Sample.horses; Sample.fridays] [] [] [] in
  let r := mergeLeagueData data Sample.stocked in
  Some Sample.horses ∈ LeagueData.Teams data
  ∧ teamsMap Sample.stocked !! Team.ID Sample.horses = Some Sample.dale
  ∧ r = Normal (state r)
  ∧ teamsMap (state r) !! Team.ID Sample.horses = Some Sample.fridays
  ∧ teamsMap (state r) !! Team.ID Sample.horses ≠ Some Sample.horses.
Proof.
  split_and!.
  - apply list_elem_of_here.
  - reflexivity.
  - reflexivity.
  - reflexivity.
  - vm_compute. discriminate.
Qed.


Lemma failed_parse_keeps_store_witness :
  let frame := dq "42[`leagueDataUpdate`,{`teams`:[{`_id`:`T2`},{`_id`:4}]}]" in
  let l := mkLoop Sample.stocked [] Running in
  (∃ cause, Sample.NextUpdate (text frame) = inl (JsonError cause))
  ∧ store (Sample.iteration (text frame) l) = Sample.stocked
  ∧ status (Sample.iteration (text frame) l) = Running.
Proof.
  intros frame l.
  assert (E : Sample.NextUpdate (text frame)
              = inl (JsonError
                  "json: cannot unmarshal value into Go value of type string"))
    by (vm_compute; reflexivity).
  destruct (failed_parse_keeps_store JsonRef.Unmarshal_LeagueData
              JsonRef.Unmarshal_GameData frame _ l [] E) as (H1 & H2 & _).
  split_and!; [by eexists | exact H1 | exact H2].
Defined.


(** * Further properties of the merge and of the loop *)

(** ** One loop over a slice *)
Section Range.

Context {T : Type}.
Variable ID : T → string.

Lemma assignAll_app (l1 l2 : list T) (m : gmap string T) :
  assignAll ID (l1 ++ l2) m = assignAll ID l2 (assignAll ID l1 m).
Proof. unfold assignAll. apply foldl_app. Qed.

(** The loop stops at the first nil pointer, with the records before it
    assigned. *)
Lemma rangeAssign_nil (before : list T) (rest : list (option T))
    (m : gmap string T) :
  rangeAssign ID ((Some <$> before) ++ None :: rest) m
  = Panic (assignAll ID before m).
Proof.
  revert m. induction before as [|x l IH]; intros m; [done|].
  simpl. apply IH.
Qed.

Lemma noNil_inv (l : list (option T)) :
  noNil l → ∃ l', l = Some <$> l'.
Proof.
  induction 1 as [|o l [x ->] _ [l' ->]].
  - by exists [].
  - by exists (x :: l').
Qed.

Lemma noNil_fmap (l : list T) : noNil (Some <$> l).
Proof. apply Forall_fmap, Forall_forall. intros x _. by eexists. Qed.

Lemma rangeAssign_keyed (l : list (option T)) (m : gmap string T) :
  keyedBy ID m → keyedBy ID (state (rangeAssign ID l m)).
Proof.
  revert m. induction l as [|[x|] l IH]; intros m Hm; simpl; [done | | done].
  apply IH. intros k y. destruct (decide (ID x = k)) as [<-|Hne].
  - rewrite lookup_insert_eq. by intros [= <-].
  - rewrite lookup_insert_ne by done. apply Hm.
Qed.

Lemma rangeAssign_dom (l : list (option T)) (m : gmap string T) :
  dom m ⊆ dom (state (rangeAssign ID l m)).
Proof.
  revert m. induction l as [|[x|] l IH]; intros m; simpl; [done | | done].
  etrans; [|apply IH]. rewrite dom_insert_L. set_solver.
Qed.

(** A key that no record of the slice has keeps what it had, also when the
    loop panics. *)
Lemma rangeAssign_other (l : list (option T)) (m : gmap string T)
    (k : string) :
  (∀ x, Some x ∈ l → ID x ≠ k) →
  state (rangeAssign ID l m) !! k = m !! k.
Proof.
  revert m. induction l as [|[x|] l IH]; intros m Hk; simpl; [done | | done].
  rewrite IH by (intros y Hy; apply Hk; by right).
  apply lookup_insert_ne, Hk. by left.
Qed.

Lemma dom_assignAll (l : list T) (m : gmap string T) :
  dom (assignAll ID l m) = dom m ∪ keys ID l.
Proof.
  revert m. induction l as [|x l IH]; intros m.
  - unfold keys. simpl. set_solver.
  - unfold assignAll in *. simpl. rewrite IH, dom_insert_L.
    unfold keys. simpl. set_solver.
Qed.

Lemma assignAll_comm (l1 l2 : list T) (m : gmap string T) :
  disjointKeys ID l1 l2 →
  assignAll ID l2 (assignAll ID l1 m) = assignAll ID l1 (assignAll ID l2 m).
Proof.
  intros Hd. apply map_eq. intros k. rewrite !lookup_assignAll.
  destruct (lastWithKey ID k l1) as [a|] eqn:E1,
           (lastWithKey ID k l2) as [b|] eqn:E2; try done.
  apply lastWithKey_Some in E1 as [Ha Eka], E2 as [Hb Ekb].
  destruct (Hd a b Ha Hb). congruence.
Qed.

End Range.

(** ** The four loops together *)

(** What every one of the four loops keeps, the merge keeps, whether it runs
    to its end or panics. *)
Lemma merge_keeps (P : Store → Prop) (data : LeagueData.t) (s : Store) :
  (∀ s, P s → P (state (rangeTeams data s))) →
  (∀ s, P s → P (state (rangeSubLeagues data s))) →
  (∀ s, P s → P (state (rangeDivisions data s))) →
  (∀ s, P s → P (state (rangeLeagues data s))) →
  P s → P (state (mergeLeagueData data s)).
Proof.
  intros HT HS HD HL Hs. unfold mergeLeagueData.
  specialize (HT s Hs). destruct (rangeTeams data s) as [s1|s1]; [|done].
  specialize (HS s1 HT). simpl.
  destruct (rangeSubLeagues data s1) as [s2|s2]; [|done].
  specialize (HD s2 HS). simpl.
  destruct (rangeDivisions data s2) as [s3|s3]; [|done].
  specialize (HL s3 HD). simpl.
  by destruct (rangeLeagues data s3).
Qed.

Lemma merge_wellKeyed (data : LeagueData.t) (s : Store) :
  wellKeyed s → wellKeyed (state (mergeLeagueData data s)).
Proof.
  apply merge_keeps; clear s; intros s (HT & HS & HD & HL);
    unfold rangeTeams, rangeSubLeagues, rangeDivisions, rangeLeagues.
  - pose proof (rangeAssign_keyed Team.ID (LeagueData.Teams data) _ HT).
    by destruct (rangeAssign Team.ID _ _).
  - pose proof (rangeAssign_keyed SubLeague.ID (LeagueData.SubLeagues data)
                  _ HS).
    by destruct (rangeAssign SubLeague.ID _ _).
  - pose proof (rangeAssign_keyed Division.ID (LeagueData.Divisions data)
                  _ HD).
    by destruct (rangeAssign Division.ID _ _).
  - pose proof (rangeAssign_keyed League.ID (LeagueData.Leagues data) _ HL).
    by destruct (rangeAssign League.ID _ _).
Qed.

Lemma keysKept_refl (s : Store) : keysKept s s.
Proof. by repeat split. Qed.

Lemma keysKept_trans (s1 s2 s3 : Store) :
  keysKept s1 s2 → keysKept s2 s3 → keysKept s1 s3.
Proof.
  intros (?&?&?&?) (?&?&?&?). split_and!; by etrans.
Qed.

Lemma merge_keysKept (data : LeagueData.t) (s : Store) :
  keysKept s (state (mergeLeagueData data s)).
Proof.
  apply (merge_keeps (keysKept s)); [.. | apply keysKept_refl];
    intros s1 H1; apply (keysKept_trans _ _ _ H1);
    unfold rangeTeams, rangeSubLeagues, rangeDivisions, rangeLeagues.
  - pose proof (rangeAssign_dom Team.ID (LeagueData.Teams data) (teamsMap s1)).
    by destruct (rangeAssign Team.ID _ _).
  - pose proof (rangeAssign_dom SubLeague.ID (LeagueData.SubLeagues data)
                  (subLeaguesMap s1)).
    by destruct (rangeAssign SubLeague.ID _ _).
  - pose proof (rangeAssign_dom Division.ID (LeagueData.Divisions data)
                  (divisionsMap s1)).
    by destruct (rangeAssign Division.ID _ _).
  - pose proof (rangeAssign_dom League.ID (LeagueData.Leagues data)
                  (leaguesMap s1)).
    by destruct (rangeAssign League.ID _ _).
Qed.

(** After the merge of league data without nil pointer, each map holds under
    a key the last record of the data that has the key, and what it held
    before when the data has none. *)
Theorem merge_lookup (s : Store) teams subLeagues divisions leagues
    (k : string) :
  let s' := state (mergeLeagueData
                     (snapshot teams subLeagues divisions leagues) s) in
  teamsMap s' !! k
    = match lastWithKey Team.ID k teams with
      | Some t => Some t
      | None => teamsMap s !! k
      end
  ∧ subLeaguesMap s' !! k
    = match lastWithKey SubLeague.ID k subLeagues with
      | Some x => Some x
      | None => subLeaguesMap s !! k
      end
  ∧ divisionsMap s' !! k
    = match lastWithKey Division.ID k divisions with
      | Some x => Some x
      | None => divisionsMap s !! k
      end
  ∧ leaguesMap s' !! k
    = match lastWithKey League.ID k leagues with
      | Some x => Some x
      | None => leaguesMap s !! k
      end.
Proof.
  intros s'. unfold s'. rewrite merge_snapshot. simpl.
  split_and!; apply lookup_assignAll.
Qed.

(** After the merge of league data without nil pointer, the keys of each map
    are the keys it had and the keys of the records of the data: no key is
    lost and no other key appears. *)
Theorem merge_dom (s : Store) teams subLeagues divisions leagues :
  let s' := state (mergeLeagueData
                     (snapshot teams subLeagues divisions leagues) s) in
  dom (teamsMap s') = dom (teamsMap s) ∪ keys Team.ID teams
  ∧ dom (subLeaguesMap s')
    = dom (subLeaguesMap s) ∪ keys SubLeague.ID subLeagues
  ∧ dom (divisionsMap s') = dom (divisionsMap s) ∪ keys Division.ID divisions
  ∧ dom (leaguesMap s') = dom (leaguesMap s) ∪ keys League.ID leagues.
Proof.
  intros s'. unfold s'. rewrite merge_snapshot. simpl.
  split_and!; apply dom_assignAll.
Qed.

(** A key that no record of a slice has keeps, in the map of that slice,
    what it had: this for any league data, nil pointers included, and also
    when the merge panics. *)
Theorem merge_other_keys (data : LeagueData.t) (s : Store) (k : string) :
  let s' := state (mergeLeagueData data s) in
  ((∀ x, Some x ∈ LeagueData.Teams data → Team.ID x ≠ k) →
   teamsMap s' !! k = teamsMap s !! k)
  ∧ ((∀ x, Some x ∈ LeagueData.SubLeagues data → SubLeague.ID x ≠ k) →
     subLeaguesMap s' !! k = subLeaguesMap s !! k)
  ∧ ((∀ x, Some x ∈ LeagueData.Divisions data → Division.ID x ≠ k) →
     divisionsMap s' !! k = divisionsMap s !! k)
  ∧ ((∀ x, Some x ∈ LeagueData.Leagues data → League.ID x ≠ k) →
     leaguesMap s' !! k = leaguesMap s !! k).
Proof.
  intros s'. unfold s'. split_and!; intros Hk.
  - apply (merge_keeps (λ s1, teamsMap s1 !! k = teamsMap s !! k));
      [.. | done]; intros s1 H1;
      unfold rangeTeams, rangeSubLeagues, rangeDivisions, rangeLeagues.
    + pose proof (rangeAssign_other Team.ID _ (teamsMap s1) k Hk).
      destruct (rangeAssign Team.ID _ _); simpl in *; congruence.
    + by destruct (rangeAssign SubLeague.ID _ _).
    + by destruct (rangeAssign Division.ID _ _).
    + by destruct (rangeAssign League.ID _ _).
  - apply (merge_keeps (λ s1, subLeaguesMap s1 !! k = subLeaguesMap s !! k));
      [.. | done]; intros s1 H1;
      unfold rangeTeams, rangeSubLeagues, rangeDivisions, rangeLeagues.
    + by destruct (rangeAssign Team.ID _ _).
    + pose proof (rangeAssign_other SubLeague.ID _ (subLeaguesMap s1) k Hk).
      destruct (rangeAssign SubLeague.ID _ _); simpl in *; congruence.
    + by destruct (rangeAssign Division.ID _ _).
    + by destruct (rangeAssign League.ID _ _).
  - apply (merge_keeps (λ s1, divisionsMap s1 !! k = divisionsMap s !! k));
      [.. | done]; intros s1 H1;
      unfold rangeTeams, rangeSubLeagues, rangeDivisions, rangeLeagues.
    + by destruct (rangeAssign Team.ID _ _).
    + by destruct (rangeAssign SubLeague.ID _ _).
    + pose proof (rangeAssign_other Division.ID _ (divisionsMap s1) k Hk).
      destruct (rangeAssign Division.ID _ _); simpl in *; congruence.
    + by destruct (rangeAssign League.ID _ _).
  - apply (merge_keeps (λ s1, leaguesMap s1 !! k = leaguesMap s !! k));
      [.. | done]; intros s1 H1;
      unfold rangeTeams, rangeSubLeagues, rangeDivisions, rangeLeagues.
    + by destruct (rangeAssign Team.ID _ _).
    + by destruct (rangeAssign SubLeague.ID _ _).
    + by destruct (rangeAssign Division.ID _ _).
    + pose proof (rangeAssign_other League.ID _ (leaguesMap s1) k Hk).
      destruct (rangeAssign League.ID _ _); simpl in *; congruence.
Qed.

(** The merge runs to its end exactly when none of the four slices has a nil
    pointer. *)
Theorem merge_completes_iff (data : LeagueData.t) (s : Store) :
  (∃ s', mergeLeagueData data s = Normal s')
  ↔ noNil (LeagueData.Teams data) ∧ noNil (LeagueData.SubLeagues data)
    ∧ noNil (LeagueData.Divisions data) ∧ noNil (LeagueData.Leagues data).
Proof.
  split.
  - intros [s' (ET & ES & ED & EL)%merge_Normal_inv].
    apply rangeAssign_Normal_inv in ET as (? & -> & _).
    apply rangeAssign_Normal_inv in ES as (? & -> & _).
    apply rangeAssign_Normal_inv in ED as (? & -> & _).
    apply rangeAssign_Normal_inv in EL as (? & -> & _).
    split_and!; apply noNil_fmap.
  - destruct data as [ts ss ds ls]. simpl.
    intros ([ts' ->]%noNil_inv & [ss' ->]%noNil_inv & [ds' ->]%noNil_inv
            & [ls' ->]%noNil_inv).
    eexists. apply (merge_snapshot ts' ss' ds' ls').
Qed.

(** A nil pointer among the teams: the merge panics with the teams before it
    in the map, and the three other maps as they were, whatever the other
    slices hold. *)
Theorem merge_nil_team (data : LeagueData.t) (s : Store)
    (before : list Team.t) (rest : list (option Team.t)) :
  LeagueData.Teams data = (Some <$> before) ++ None :: rest →
  mergeLeagueData data s
  = Panic (mkStore (assignAll Team.ID before (teamsMap s)) (subLeaguesMap s)
             (divisionsMap s) (leaguesMap s)).
Proof.
  intros E. unfold mergeLeagueData, rangeTeams.
  by rewrite E, rangeAssign_nil.
Qed.

(** A nil pointer among the leagues, the last slice: the merge panics after
    it has assigned all the teams, sub-leagues and divisions and the leagues
    before the nil pointer. *)
Theorem merge_nil_league (s : Store) teams subLeagues divisions
    (before : list League.t) (rest : list (option League.t)) :
  mergeLeagueData
    (LeagueData.mk (Some <$> teams) (Some <$> subLeagues) (Some <$> divisions)
       ((Some <$> before) ++ None :: rest)) s
  = Panic (mkStore (assignAll Team.ID teams (teamsMap s))
             (assignAll SubLeague.ID subLeagues (subLeaguesMap s))
             (assignAll Division.ID divisions (divisionsMap s))
             (assignAll League.ID before (leaguesMap s))).
Proof.
  unfold mergeLeagueData, rangeTeams, rangeSubLeagues, rangeDivisions,
    rangeLeagues. simpl.
  repeat (rewrite rangeAssign_Some; simpl).
  by rewrite rangeAssign_nil.
Qed.

(** Two merges of league data without nil pointer, one after the other, do
    what one merge of the data put end to end does. *)
Theorem merge_append (s : Store) t1 s1 d1 l1 t2 s2 d2 l2 :
  mergeLeagueData (snapshot t1 s1 d1 l1) s
    >>> mergeLeagueData (snapshot t2 s2 d2 l2)
  = mergeLeagueData (snapshot (t1 ++ t2) (s1 ++ s2) (d1 ++ d2) (l1 ++ l2)) s.
Proof.
  rewrite !merge_snapshot. simpl. rewrite merge_snapshot. simpl.
  by rewrite !assignAll_app.
Qed.

(** Two merges of league data that share no key, kind by kind, give the same
    maps in either order. *)
Theorem merge_commute (s : Store) t1 s1 d1 l1 t2 s2 d2 l2 :
  disjointKeys Team.ID t1 t2 →
  disjointKeys SubLeague.ID s1 s2 →
  disjointKeys Division.ID d1 d2 →
  disjointKeys League.ID l1 l2 →
  mergeLeagueData (snapshot t1 s1 d1 l1) s
    >>> mergeLeagueData (snapshot t2 s2 d2 l2)
  = mergeLeagueData (snapshot t2 s2 d2 l2) s
      >>> mergeLeagueData (snapshot t1 s1 d1 l1).
Proof.
  intros HT HS HD HL.
  rewrite !merge_snapshot. simpl. rewrite !merge_snapshot. simpl.
  by rewrite (assignAll_comm _ _ _ _ HT), (assignAll_comm _ _ _ _ HS),
    (assignAll_comm _ _ _ _ HD), (assignAll_comm _ _ _ _ HL).
Qed.

(** ** The decoder, further *)
Section DecoderMore.

Context {GameData : Type}.
Variable unL : Bytes → string + LeagueData.t.
Variable unG : Bytes → string + GameData.

Lemma HasPrefix_short (s p : Bytes) :
  length s < length p → bytes.HasPrefix s p = false.
Proof.
  intros H. unfold bytes.HasPrefix.
  rewrite bool_decide_eq_false_2; [done | lia].
Qed.

(** A frame that, once its [42[] is off, is shorter than the shorter of the
    two event names is unrecognized: so are the empty frame and the frame
    [42[] alone.  (The lengths compared at lines 281 and 296 are then below
    zero on the right-hand side.) *)
Theorem short_frame_unrecognized (frame : Bytes) :
  length (bytes.TrimPrefix frame (bs "42[")) < length gameDataPrefix →
  NextUpdate unL unG (text frame) = inl Unrecognized.
Proof.
  intros H. apply NextUpdate_neither; apply HasPrefix_short; [|done].
  etrans; [exact H|]. simpl. lia.
Qed.

(** Where an update comes from: [NextUpdate] returns league data, or game
    data, only on a text message that has the event name of that kind, after
    its [42[] if any, and what [json.Unmarshal] made of the rest, a closing
    bracket taken off. *)
Theorem update_inv (read : websocket.ReadMessage) (update : Update GameData) :
  NextUpdate unL unG read = inr update →
  ∃ frame body,
    read = text frame
    ∧ ((bytes.TrimPrefix frame (bs "42[") = leagueDataPrefix ++ body
        ∧ ∃ data, unL (bytes.TrimSuffix body (bs "]")) = inr data
                  ∧ update = IsLeagueData data)
       ∨ (bytes.TrimPrefix frame (bs "42[") = gameDataPrefix ++ body
          ∧ ∃ g, unG (bytes.TrimSuffix body (bs "]")) = inr g
                 ∧ update = IsGameData g)).
Proof.
  destruct read as [t msg|err]; [|done].
  destruct (decide (t = websocket.TextMessage)) as [->|Ht].
  2: { unfold NextUpdate. by rewrite bool_decide_eq_true_2. }
  fold (text msg). rewrite NextUpdate_text. cbv zeta.
  set (rest := bytes.TrimPrefix msg (bs "42[")).
  destruct (bytes.HasPrefix rest leagueDataPrefix) eqn:EL.
  - unfold leagueUpdate. intros E.
    exists msg, (drop (length leagueDataPrefix) rest).
    split; [done|]. left. split; [by apply HasPrefix_inv|].
    destruct (unL _) as [|data]; [done|]. exists data. split; congruence.
  - destruct (bytes.HasPrefix rest gameDataPrefix) eqn:EG; [|done].
    unfold gameUpdate. intros E.
    exists msg, (drop (length gameDataPrefix) rest).
    split; [done|]. right. split; [by apply HasPrefix_inv|].
    destruct (unG _) as [|g]; [done|]. exists g. split; congruence.
Qed.

End DecoderMore.

(** ** The loop, further *)
Section LoopMore.

Context {GameData : Type}.
Variable unL : Bytes → string + LeagueData.t.
Variable unG : Bytes → string + GameData.

Lemma run_stopped (reads : list websocket.ReadMessage) (l : Loop) :
  status l ≠ Running → run unL unG reads l = l.
Proof. destruct reads; [done|]. simpl. by destruct (status l). Qed.






Lemma iteration_wellKeyed (read : websocket.ReadMessage) (l : Loop) :
  wellKeyed (store l) → wellKeyed (store (iteration unL unG read l)).
Proof.
  intros H. unfold iteration.
  destruct (NextUpdate unL unG read) as [err|[data|g]]; [| | done].
  - by destruct (websocket.IsCloseError err []).
  - pose proof (merge_wellKeyed data _ H).
    by destruct (mergeLeagueData data (store l)).
Qed.

Lemma run_wellKeyed (reads : list websocket.ReadMessage) (l : Loop) :
  wellKeyed (store l) → wellKeyed (store (run unL unG reads l)).
Proof.
  revert l. induction reads as [|read reads IH]; intros l H; [done|].
  simpl. destruct (status l); [|done..].
  by apply IH, iteration_wellKeyed.
Qed.

(** Whatever was read since the goroutine started, each of the four maps
    holds every record under the record's own [ID]. *)
Theorem store_wellKeyed (reads : list websocket.ReadMessage) :
  wellKeyed (store (run unL unG reads start)).
Proof.
  apply run_wellKeyed. by repeat split.
Qed.

Lemma iteration_keysKept (read : websocket.ReadMessage) (l : Loop) :
  keysKept (store l) (store (iteration unL unG read l)).
Proof.
  unfold iteration.
  destruct (NextUpdate unL unG read) as [err|[data|g]].
  - destruct (websocket.IsCloseError err []); apply keysKept_refl.
  - pose proof (merge_keysKept data (store l)).
    by destruct (mergeLeagueData data (store l)).
  - apply keysKept_refl.
Qed.

(** The loop never deletes: a key that a map holds, it holds after any
    further reads. *)
Theorem run_keysKept (reads : list websocket.ReadMessage) (l : Loop) :
  keysKept (store l) (store (run unL unG reads l)).
Proof.
  revert l. induction reads as [|read reads IH]; intros l;
    [apply keysKept_refl|].
  simpl. destruct (status l); [|apply keysKept_refl..].
  eapply keysKept_trans; [apply iteration_keysKept | apply IH].
Qed.

(** The goroutine never leaves through its [return]: after any reads it is
    in its [for] or stopped by a panic. *)
Theorem never_returns (reads : list websocket.ReadMessage) :
  status (run unL unG reads start) = Running
  ∨ status (run unL unG reads start) = Panicked.
Proof.
  pose proof (run_not_Closed unL unG reads start) as H.
  destruct (status (run unL unG reads start)); [by left | | by right].
  by destruct H.
Qed.

(** A turn on league data whose merge panics: the goroutine stops there, the
    maps as the panic left them, the blank line of line 382 not printed, and
    no later read is looked at. *)
Theorem panic_stops_loop (read : websocket.ReadMessage) (data : LeagueData.t)
    (l : Loop) (s' : Store) (reads : list websocket.ReadMessage) :
  status l = Running →
  NextUpdate unL unG read = inr (IsLeagueData data) →
  mergeLeagueData data (store l) = Panic s' →
  run unL unG (read :: reads) l
  = mkLoop s'
      (printed l ++ [PrintWaiting; PrintUpdateType; PrintLeagueData])
      Panicked.
Proof.
  intros El E Em. simpl. rewrite El. unfold iteration. rewrite E, Em.
  rewrite run_stopped by done. by rewrite <- !app_assoc.
Qed.

Lemma iteration_observed (read : websocket.ReadMessage) (l : Loop) :
  observed (printed (iteration unL unG read l))
  = observed (printed l) + (if decodesGame unL unG read then 1 else 0).
Proof.
  unfold decodesGame, iteration.
  destruct (NextUpdate unL unG read) as [err|[data|g]].
  - destruct (websocket.IsCloseError err []); simpl; unfold observed;
      rewrite !filter_app, !length_app; simpl; lia.
  - destruct (mergeLeagueData data (store l)); simpl; unfold observed;
      rewrite !filter_app, !length_app; simpl; lia.
  - simpl. unfold observed. rewrite !filter_app, !length_app. simpl. lia.
Qed.

(** Over a run that is still in its [for] at the end, the branch
    [case *GameData] was taken once for each read that decodes as game
    data. *)
Theorem run_observed (reads : list websocket.ReadMessage) (l : Loop) :
  status (run unL unG reads l) = Running →
  observed (printed (run unL unG reads l))
  = observed (printed l)
    + length (filter (λ read, decodesGame unL unG read = true) reads).
Proof.
  revert l. induction reads as [|read reads IH]; intros l; simpl.
  - intros _. lia.
  - destruct (status l) eqn:El; [|congruence..].
    intros H. rewrite (IH _ H), iteration_observed.
    destruct (decodesGame unL unG read) eqn:E.
    + rewrite filter_cons_True by done. simpl. lia.
    + rewrite filter_cons_False by (rewrite E; done). lia.
Qed.

End LoopMore.

(** ** The further properties on concrete values *)

Lemma merge_other_keys_witness :
  let data := LeagueData.mk [Some tigers; None] [] [] [] in
  teamsMap (state (mergeLeagueData data Sample.stocked)) !! "T1"
  = Some Sample.dale.
Proof.
  intros data.
  refine (proj1 (merge_other_keys data Sample.stocked "T1") _).
  intros x [E|[E|E]%elem_of_cons]%elem_of_cons.
  - injection E as ->. discriminate.
  - discriminate.
  - by apply not_elem_of_nil in E.
Defined.

Lemma merge_completes_iff_witness :
  ∃ s', mergeLeagueData (LeagueData.mk [Some tigers] [] [] []) Sample.stocked
        = Normal s'.
Proof.
  apply (proj2 (merge_completes_iff (LeagueData.mk [Some tigers] [] [] [])
                  Sample.stocked)).
  unfold noNil. simpl. split_and!; repeat constructor. by eexists.
Defined.

Lemma merge_nil_team_witness :
  let data := LeagueData.mk [Some tigers; None; Some Sample.fridays] []
                [] [Some (League.mk [] "L2" "Other" "TB")] in
  mergeLeagueData data Sample.stocked
  = Panic (mkStore (assignAll Team.ID [tigers] (teamsMap Sample.stocked))
             (subLeaguesMap Sample.stocked) (divisionsMap Sample.stocked)
             (leaguesMap Sample.stocked)).
Proof.
  intros data.
  exact (merge_nil_team data Sample.stocked [tigers] [Some Sample.fridays]
           eq_refl).
Defined.

Lemma merge_commute_witness :
  mergeLeagueData (snapshot [Sample.fridays] [] [] []) emptyStore
    >>> mergeLeagueData (snapshot [tigers] [] [] [])
  = mergeLeagueData (snapshot [tigers] [] [] []) emptyStore
      >>> mergeLeagueData (snapshot [Sample.fridays] [] [] []).
Proof.
  apply merge_commute.
  - intros a b ->%list_elem_of_singleton ->%list_elem_of_singleton.
    discriminate.
  - intros a b Ha. by apply not_elem_of_nil in Ha.
  - intros a b Ha. by apply not_elem_of_nil in Ha.
  - intros a b Ha. by apply not_elem_of_nil in Ha.
Defined.

Lemma short_frame_unrecognized_witness :
  Sample.NextUpdate (text []) = inl Unrecognized
  ∧ Sample.NextUpdate (text (bs "42[")) = inl Unrecognized.
Proof.
  split.
  - apply (short_frame_unrecognized JsonRef.Unmarshal_LeagueData
             JsonRef.Unmarshal_GameData []). simpl. lia.
  - apply (short_frame_unrecognized JsonRef.Unmarshal_LeagueData
             JsonRef.Unmarshal_GameData (bs "42[")). simpl. lia.
Defined.

Lemma update_inv_witness :
  let frame := dq "42[`gameDataUpdate`,{`sim`:{`day`:7}}]" in
  ∃ frame' body,
    text frame = text frame'
    ∧ ((bytes.TrimPrefix frame' (bs "42[") = leagueDataPrefix ++ body
        ∧ ∃ data,
            JsonRef.Unmarshal_LeagueData (bytes.TrimSuffix body (bs "]"))
            = inr data
            ∧ IsGameData (JsonRef.Obj
                [("sim", JsonRef.Obj [("day", JsonRef.Number (bs "7"))])])
              = IsLeagueData data)
       ∨ (bytes.TrimPrefix frame' (bs "42[") = gameDataPrefix ++ body
          ∧ ∃ g,
              JsonRef.Unmarshal_GameData (bytes.TrimSuffix body (bs "]"))
              = inr g
              ∧ IsGameData (JsonRef.Obj
                  [("sim", JsonRef.Obj [("day", JsonRef.Number (bs "7"))])])
                = IsGameData g)).
Proof.
  intros frame.
  apply (update_inv JsonRef.Unmarshal_LeagueData JsonRef.Unmarshal_GameData).
  vm_compute. reflexivity.
Defined.

Lemma panic_stops_loop_witness :
  let f := text (dq "42[`leagueDataUpdate`,{`teams`:[{`_id`:`T2`,`fullName`:`Hades Tigers`},null]}]") in
  let g := text (dq "42[`gameDataUpdate`,{}]") in
  Sample.run [f; g; f] start
  = mkLoop (mkStore {[ "T2" := tigers ]} ∅ ∅ ∅)
      [PrintWaiting; PrintUpdateType; PrintLeagueData] Panicked.
Proof.
  intros f g.
  apply (panic_stops_loop JsonRef.Unmarshal_LeagueData
           JsonRef.Unmarshal_GameData f
           (LeagueData.mk [Some tigers; None] [] [] []) start
           (mkStore {[ "T2" := tigers ]} ∅ ∅ ∅) [g; f]).
  - reflexivity.
  - vm_compute. reflexivity.
  - reflexivity.
Defined.

Lemma run_observed_witness :
  let l := text (dq "42[`leagueDataUpdate`,{`teams`:[{`_id`:`T2`}]}]") in
  let g := text (dq "42[`gameDataUpdate`,{}]") in
  let e := websocket.Failed (ReadError "timeout") in
  status (Sample.run [g; l; e; g] start) = Running
  ∧ observed (printed (Sample.run [g; l; e; g] start)) = 2.
Proof.
  intros l g e.
  assert (H : status (Sample.run [g; l; e; g] start) = Running)
    by (vm_compute; reflexivity).
  split; [exact H|].
  etrans; [exact (run_observed JsonRef.Unmarshal_LeagueData
                     JsonRef.Unmarshal_GameData [g; l; e; g] start H) |].
  vm_compute. reflexivity.
Defined.

(** ** The start of [main] *)
Section Start.

Context {Conn : Type}.
Variable DialContext : string → list (string * string) → Dial Conn.

(** [main] starts the goroutine exactly when it has one argument after the
    name of the program and the dialer, given that argument as the [Cookie]
    header, returns a connection; the goroutine is started on that
    connection. *)
Theorem main_serves_iff (Args : list string) (out : list Console)
    (conn : Conn) :
  main DialContext Args = Serves out conn
  ↔ out = [SayConnecting; SayConnected]
    ∧ ∃ prog cookie,
        Args = [prog; cookie]
        ∧ DialContext socketURL [("Cookie", cookie)] = Dialed conn.
Proof.
  unfold main, blaseballConnect. split.
  - case_bool_decide as Hlen.
    { by destruct (Args !! 0). }
    destruct Args as [|prog [|cookie [|]]]; simpl in *; try lia.
    destruct (DialContext socketURL [("Cookie", cookie)])
      as [c|[r|] err] eqn:E; [| | done].
    + intros [= <- <-]. eauto.
    + by destruct (http.Body r).
  - intros (-> & prog & cookie & -> & E). simpl. by rewrite E.
Qed.

(** When the dialer fails, [main] prints the error of the dialer last and
    returns, provided the failure came with a response; with no response
    ([resp] nil) it panics on [resp.Body] before the error is printed. *)
Theorem main_dial_failed (prog cookie : string)
    (resp : option http.Response) (err : error) :
  DialContext socketURL [("Cookie", cookie)] = DialFailed resp err →
  match resp with
  | None =>
    main DialContext [prog; cookie]
    = Crashes [SayConnecting; SayResponse None]
  | Some r =>
    main DialContext [prog; cookie]
    = Leaves [SayConnecting; SayResponse resp;
              match http.Body r with
              | inl err' => SayError err'
              | inr body => SayBody body
              end;
              SayError err]
  end.
Proof.
  intros E. unfold main, blaseballConnect. simpl. rewrite E.
  destruct resp as [r|]; [|done].
  by destruct (http.Body r).
Qed.

End Start.

Lemma main_dial_failed_witness :
  let refused : string → list (string * string) → Dial unit :=
    λ _ _, DialFailed None (ReadError "connection refused") in
  main refused ["scraper"; "sid=1"]
  = Crashes [SayConnecting; SayResponse None].
Proof.
  intros refused.
  exact (main_dial_failed refused "scraper" "sid=1" None
           (ReadError "connection refused") eq_refl).
Defined.

Lemma main_serves_iff_witness :
  let dialer : string → list (string * string) → Dial nat :=
    λ url header,
      if decide (url = socketURL ∧ header = [("Cookie", "sid=1")])
      then Dialed 7
      else DialFailed (Some (http.mk (inr (bs "Unauthorized"))))
             (ReadError "websocket: bad handshake") in
  main dialer ["scraper"; "sid=1"] = Serves [SayConnecting; SayConnected] 7.
Proof.
  intros dialer.
  apply (main_serves_iff dialer).
  split; [reflexivity|]. exists "scraper", "sid=1". split; reflexivity.
Defined.
